(** * A Sanskrit (IAST) tokeniser and its heuristic sandhi splitter

    Shallow embedding of [python experiment/Sanskrit_tokeniser.py] (the
    command-line variant: [basic_tokenize], [simple_sandhi_splits],
    [pipeline_tokenize]) and of the tokenizer of
    [python experiment/.venv/Sanskrit_tokeniser.py] (the desktop variant:
    [tokenize]).

    A Python [str] is a sequence of Unicode code points; it is modelled as a
    list of integers.  What the program takes from the Python runtime
    (character classification, Unicode normalisation, the iteration order of
    a [set]) is gathered in interfaces, so that every theorem quantified over
    an interface holds whatever the Unicode tables are. *)

From Stdlib Require Import List ZArith Bool Lia Arith PeanoNat.
From Stdlib Require Import Permutation Sorted.
Import ListNotations.

Set Implicit Arguments.

Local Open Scope Z_scope.

(** ** Python values *)

(** A code point. *)
Definition char := Z.

(** A Python [str]. *)
Definition str := list char.

Definition char_eqb (a b : char) : bool := Z.eqb a b.

Fixpoint str_eqb (a b : str) : bool :=
  match a, b with
  | [], [] => true
  | x :: a', y :: b' => char_eqb x y && str_eqb a' b'
  | _, _ => false
  end.

(** Exceptions the modelled code can raise. *)
Inductive exn := IndexError.

(** The outcome of a Python call: a value or a raised exception. *)
Inductive result (A : Type) :=
| Ok (a : A)
| Raise (e : exn).

Arguments Ok {A} a.
Arguments Raise {A} e.

Definition bind {A B} (m : result A) (k : A -> result B) : result B :=
  match m with
  | Ok a => k a
  | Raise e => Raise e
  end.

Notation "x <- m ;; k" := (bind m (fun x => k))
  (at level 61, m at next level, right associativity).

(** The truth value of an [int]: [0] is false. *)
Definition truthy (n : Z) : bool := negb (n =? 0).

(** [s[0]]: the first code point, [IndexError] on the empty string. *)
Definition index_first (s : str) : result char :=
  match s with
  | [] => Raise IndexError
  | c :: _ => Ok c
  end.

(** [s[-1]]: the last code point, [IndexError] on the empty string. *)
Fixpoint index_last (s : str) : result char :=
  match s with
  | [] => Raise IndexError
  | [c] => Ok c
  | _ :: s' => index_last s'
  end.

(** [s[:i]] and [s[i:]] for [0 <= i]; slices never raise. *)
Definition slice_to (s : str) (i : nat) : str := firstn i s.
Definition slice_from (s : str) (i : nat) : str := skipn i s.

(** [s[i:j]] for [0 <= i], [0 <= j]. *)
Definition slice (s : str) (i j : nat) : str := firstn (j - i) (skipn i s).

(** [s.endswith(suffix)]. *)
Definition endswith (s suffix : str) : bool :=
  (length suffix <=? length s)%nat
  && str_eqb (skipn (length s - length suffix) s) suffix.

(** [range(a, b)]. *)
Definition range (a b : nat) : list nat := seq a (b - a).

(** [c in set(letters)]. *)
Definition mem (c : char) (letters : list char) : bool :=
  existsb (char_eqb c) letters.

(** ** Regular expressions

    The patterns of the program use character classes, concatenation and
    the greedy repetitions [+] and [*].  [run r s] lists, in the order in
    which a backtracking matcher tries them, the remainders of [s] after a
    match of [r] at its start. *)

Inductive regex :=
| Class (p : char -> bool)
| Cat (a b : regex)
| Star (a : regex)
| Plus (a : regex).

(** Greedy iteration of a matcher [step], for at most [fuel] rounds; a
    round that consumes nothing is not repeated. *)
Fixpoint iterate (step : str -> list str) (fuel : nat) (s : str) : list str :=
  match fuel with
  | O => [s]
  | S fuel' =>
      flat_map (fun s' => if (length s' <? length s)%nat
                          then iterate step fuel' s' else [])
               (step s) ++ [s]
  end.

Fixpoint run (r : regex) (s : str) : list str :=
  match r with
  | Class p =>
      match s with
      | c :: s' => if p c then [s'] else []
      | [] => []
      end
  | Cat a b => flat_map (run b) (run a s)
  | Star a => iterate (run a) (length s) s
  | Plus a => flat_map (fun s' => iterate (run a) (length s') s') (run a s)
  end.

(** A compiled pattern's [match(text, pos)]: the match found first. The
    match object is kept as its span [(start, end)]. *)
Definition re_match (r : regex) (text : str) (pos : nat) : option (nat * nat) :=
  match run r (skipn pos text) with
  | rest :: _ => Some (pos, (length text - length rest)%nat)
  | [] => None
  end.

(** [m.group(0)] of a match object of [text]. *)
Definition group0 (text : str) (m : nat * nat) : str :=
  slice text (fst m) (snd m).

(** [m.end()]. *)
Definition m_end (m : nat * nat) : nat := snd m.

(** [re.fullmatch(r, s)], as a truth value: some way of matching [r]
    consumes all of [s]. *)
Definition re_fullmatch (r : regex) (s : str) : bool :=
  existsb (fun rest => match rest with [] => true | _ => false end) (run r s).

(** ** What the program takes from the Python runtime *)

(** The normalisation forms of [unicodedata.normalize]. *)
Inductive form := NFC | NFD | NFKC | NFKD.

(** Unicode classification and normalisation.  [isspace] is both
    [str.isspace] on one code point and the class [\s] of [re] (CPython
    decides both with the same table); [isdecimal] is the class [\d] and
    [isword] the class [\w] of a [str] pattern. *)
Record Runtime := {
  isspace : char -> bool;
  isdecimal : char -> bool;
  isword : char -> bool;
  unicodedata_normalize : form -> str -> str;
  unicodedata_combining : char -> Z
}.

(** The iteration order of [set(candidates)].  CPython iterates a set in
    the order of its hash table, and the hash of a [str] changes from one
    interpreter process to the next; all that is fixed is that the
    elements are those of the list, each one once. *)
Record SetOrder := {
  set_iter : list (str * str) -> list (str * str);
  set_iter_NoDup : forall l, NoDup (set_iter l);
  set_iter_In : forall l x, In x (set_iter l) <-> In x l
}.

(** [sorted(l, key=key)]: Python's sort is stable. *)
Section Sorted.
Context {A : Type} (key : A -> Z).

Fixpoint insert_by (x : A) (l : list A) : list A :=
  match l with
  | [] => [x]
  | y :: l' => if key x <=? key y then x :: l else y :: insert_by x l'
  end.

Definition sorted (l : list A) : list A := fold_right insert_by [] l.
End Sorted.

(** [s.strip()]: leading and trailing whitespace removed. *)
Section Strip.
Variable space : char -> bool.

Fixpoint lstrip (s : str) : str :=
  match s with
  | c :: s' => if space c then lstrip s' else s
  | [] => []
  end.

Definition rstrip (s : str) : str := rev (lstrip (rev s)).

Definition strip (s : str) : str := rstrip (lstrip s).
End Strip.

(** ** The scanner loop

    Both variants run the same loop over their own three patterns:
<<
    tokens = []; i = 0
    while i < len(text):
        if text[i].isspace(): i += 1; continue
        m = NUMBER_RE.match(text, i)
        if m: tokens.append(m.group(0)); i = m.end(); continue
        ... WORD_RE ... PUNCT_RE ...
        tokens.append(text[i]); i += 1
>> *)
Record scan_state := {
  cursor : nat;
  tokens : list str
}.

Section Scanner.
Variable space : char -> bool.
Variables NUMBER_RE WORD_RE PUNCT_RE : regex.

Definition emit (text : str) (m : nat * nat) (st : scan_state) : scan_state :=
  {| cursor := m_end m; tokens := tokens st ++ [group0 text m] |}.

(** The loop body at a cursor [i < len(text)], where [c = text[i]]. *)
Definition scan_body (text : str) (c : char) (st : scan_state) : scan_state :=
  let i := cursor st in
  if space c then {| cursor := i + 1; tokens := tokens st |}
  else match re_match NUMBER_RE text i with
  | Some m => emit text m st
  | None =>
  match re_match WORD_RE text i with
  | Some m => emit text m st
  | None =>
  match re_match PUNCT_RE text i with
  | Some m => emit text m st
  | None => {| cursor := i + 1; tokens := tokens st ++ [[c]] |}
  end end end.

(** [fuel] rounds of the [while] loop; [text[i]] exists exactly when the
    guard [i < len(text)] holds. *)
Fixpoint scan_loop (fuel : nat) (text : str) (st : scan_state) : scan_state :=
  match fuel with
  | O => st
  | S fuel' =>
      match nth_error text (cursor st) with
      | None => st
      | Some c => scan_loop fuel' text (scan_body text c st)
      end
  end.

Definition scan (text : str) : list str :=
  tokens (scan_loop (length text) text {| cursor := 0; tokens := [] |}).

(** The same loop, keeping a record of what each round consumed: a
    skipped whitespace code point or an emitted token. *)
Inductive piece := Skipped (c : char) | Emitted (t : str).

Definition piece_text (p : piece) : str :=
  match p with Skipped c => [c] | Emitted t => t end.

Definition trace_text (tr : list piece) : str := flat_map piece_text tr.

Fixpoint trace_tokens (tr : list piece) : list str :=
  match tr with
  | [] => []
  | Skipped _ :: tr' => trace_tokens tr'
  | Emitted t :: tr' => t :: trace_tokens tr'
  end.

Definition skipped_space (p : piece) : Prop :=
  match p with Skipped c => space c = true | Emitted _ => True end.

Definition body_piece (text : str) (c : char) (st : scan_state) : piece :=
  if space c then Skipped c
  else Emitted (slice text (cursor st) (cursor (scan_body text c st))).

Fixpoint scan_trace (fuel : nat) (text : str) (st : scan_state) : list piece :=
  match fuel with
  | O => []
  | S fuel' =>
      match nth_error text (cursor st) with
      | None => []
      | Some c =>
          body_piece text c st :: scan_trace fuel' text (scan_body text c st)
      end
  end.
End Scanner.


(** ** Character ranges of the patterns *)

Definition in_range (lo hi c : char) : bool := (lo <=? c) && (c <=? hi).

(** [A-Za-z] *)
Definition ascii_letter (c : char) : bool :=
  in_range 0x41 0x5A c || in_range 0x61 0x7A c.

(** [Ā-ɏḀ-ỿ] *)
Definition extended_latin (c : char) : bool :=
  in_range 0x100 0x24F c || in_range 0x1E00 0x1EFF c.

(** [A-Za-zĀ-ɏḀ-ỿ] *)
Definition latin_letter (c : char) : bool :=
  ascii_letter c || extended_latin c.

(** [-'] *)
Definition hyphen_apostrophe (c : char) : bool :=
  char_eqb c 0x2D || char_eqb c 0x27.

(** [.,] *)
Definition dot_comma (c : char) : bool :=
  char_eqb c 0x2E || char_eqb c 0x2C.

(** [mapping.get(ch, ch)] on a dict literal: the last entry of a key wins. *)
Definition dict_get (mapping : list (char * str)) (ch : char) (default : str)
  : str :=
  match find (fun kv => char_eqb (fst kv) ch) (rev mapping) with
  | Some (_, v) => v
  | None => default
  end.

(** ** The command-line variant: [python experiment/Sanskrit_tokeniser.py] *)
Module Cli.
Section Program.
Variable rt : Runtime.
Variable so : SetOrder.

Definition WORD_RE : regex :=
  Cat (Plus (Class latin_letter))
      (Star (Cat (Class hyphen_apostrophe) (Plus (Class latin_letter)))).

Definition NUMBER_RE : regex :=
  Cat (Plus (Class (isdecimal rt)))
      (Star (Cat (Class dot_comma) (Plus (Class (isdecimal rt))))).

(** [[^\s\wĀ-ɏḀ-ỿ]] *)
Definition punct_class (c : char) : bool :=
  negb (isspace rt c || isword rt c || extended_latin c).

Definition PUNCT_RE : regex := Class punct_class.

Definition normalize_text (text : str) (form : form) : str :=
  unicodedata_normalize rt form text.

Definition strip_diacritics (text : str) : str :=
  let nfkd := unicodedata_normalize rt NFKD text in
  let stripped :=
    filter (fun ch => negb (truthy (unicodedata_combining rt ch))) nfkd in
  unicodedata_normalize rt NFC stripped.

Definition mapping : list (char * str) :=
  [ (0x101, [0x61]); (0x12B, [0x69]); (0x16B, [0x75]); (0x1E5B, [0x72]);
    (0x1E5D, [0x72]);
    (0x1E37, [0x6C]); (0x1E39, [0x6C]);
    (0x1E45, [0x6E]); (0xF1, [0x6E]); (0x1E47, [0x6E]); (0x1E63, [0x73]);
    (0x15B, [0x73]); (0x1E25, [0x68]);
    (0x1E0D, [0x64]); (0x1E6D, [0x74]); (0x1E37, [0x6C]); (0x1E41, [0x6D]);
    (0x100, [0x41]); (0x12A, [0x49]); (0x16A, [0x55]); (0x1E5A, [0x52]);
    (0x1E5C, [0x52]);
    (0x1E44, [0x4E]); (0xD1, [0x4E]); (0x1E46, [0x4E]); (0x1E62, [0x53]);
    (0x15A, [0x53]); (0x1E24, [0x48]);
    (0x1E0C, [0x44]); (0x1E6C, [0x54]); (0x1E36, [0x4C]); (0x1E40, [0x4D]) ].

Definition iast_to_simple_ascii (iast : str) : str :=
  flat_map (fun ch => dict_get mapping ch [ch]) iast.

(** The text the scanner runs on: the input after the optional steps. *)
Definition prepare (text : str) (normalize strip_diac iast_ascii : bool) : str :=
  let text := if normalize then normalize_text text NFC else text in
  let text := if strip_diac then strip_diacritics text else text in
  let text := if iast_ascii then iast_to_simple_ascii text else text in
  text.

Definition basic_tokenize (text : str) (normalize strip_diac iast_ascii : bool)
  : list str :=
  scan (isspace rt) NUMBER_RE WORD_RE PUNCT_RE
       (prepare text normalize strip_diac iast_ascii).

(** [set("aeiouāīūṛṝḷAEIOUĀĪŪṚṜḶ")] *)
Definition VOWELS : list char :=
  [ 0x61; 0x65; 0x69; 0x6F; 0x75; 0x101; 0x12B; 0x16B; 0x1E5B; 0x1E5D; 0x1E37;
    0x41; 0x45; 0x49; 0x4F; 0x55; 0x100; 0x12A; 0x16A; 0x1E5A; 0x1E5C; 0x1E36 ].

(** The visarga letter [ḥ] and the plain [h] of heuristic 3. *)
Definition visarga : str := [0x1E25].
Definition plain_h : str := [0x68].

(** [a and b] and [a or b]: [b] is evaluated only when [a] does not decide. *)
Definition and_then (a b : result bool) : result bool :=
  x <- a ;; if x then b else Ok false.

Definition or_else (a b : result bool) : result bool :=
  x <- a ;; if x then Ok true else b.

Definition in_vowels (c : result char) : result bool :=
  x <- c ;; Ok (mem x VOWELS).

Definition not_in_vowels (c : result char) : result bool :=
  x <- c ;; Ok (negb (mem x VOWELS)).

(** The chain of [if]s of the loop body: the number of the heuristic that
    appends [(L, R)], if one does. *)
Definition heuristic (L R : str) : result (option nat) :=
  h1 <- and_then (in_vowels (index_last L)) (in_vowels (index_first R)) ;;
  if h1 then Ok (Some 1%nat) else
  h2 <- and_then (not_in_vowels (index_last L)) (in_vowels (index_first R)) ;;
  if h2 then Ok (Some 2%nat) else
  h3 <- or_else (Ok (endswith L visarga))
                (and_then (Ok (endswith L plain_h))
                          (in_vowels (index_first R))) ;;
  if h3 then Ok (Some 3%nat) else Ok None.

(** [for i in range(...)]: the loop over the split indices. *)
Fixpoint try_splits (token : str) (indices : list nat)
  (candidates : list (str * str)) : result (list (str * str)) :=
  match indices with
  | [] => Ok candidates
  | i :: indices' =>
      let L := slice_to token i in
      let R := slice_from token i in
      h <- heuristic L R ;;
      match h with
      | Some _ => try_splits token indices' (candidates ++ [(L, R)])
      | None => try_splits token indices' candidates
      end
  end.

Definition score (split : str * str) : Z :=
  let (L, R) := split in
  Z.abs (Z.of_nat (length L) - Z.of_nat (length R)).

(** [min_part_len] is taken among the non-negative integers. *)
Definition simple_sandhi_splits (token : str) (min_part_len : nat)
  : result (list (str * str)) :=
  let token := strip (isspace rt) token in
  let n := length token in
  if (n <? min_part_len * 2)%nat then Ok []
  else
    candidates <-
      try_splits token (range min_part_len (n - min_part_len + 1)) [] ;;
    Ok (sorted score (set_iter so candidates)).

(** The default [min_part_len = 2]. *)
Definition default_min_part_len : nat := 2.

(** The loop of [pipeline_tokenize] over the scanned tokens. *)
Fixpoint expand_tokens (toks : list str) (expanded : list str)
  : result (list str) :=
  match toks with
  | [] => Ok expanded
  | t :: toks' =>
      if re_fullmatch WORD_RE t then
        splits <- simple_sandhi_splits t default_min_part_len ;;
        match splits with
        | (left_part, right_part) :: _ =>
            expand_tokens toks' (expanded ++ [left_part; right_part])
        | [] => expand_tokens toks' (expanded ++ [t])
        end
      else expand_tokens toks' (expanded ++ [t])
  end.

Definition pipeline_tokenize (text : str)
  (normalize strip_diacritics_flag iast_ascii_flag sandhi_split : bool)
  : result (list str) :=
  let toks := basic_tokenize text normalize strip_diacritics_flag
                             iast_ascii_flag in
  if negb sandhi_split then Ok toks
  else expand_tokens toks [].

End Program.
End Cli.

(** [sep.join(parts)] *)
Fixpoint join (sep : str) (parts : list str) : str :=
  match parts with
  | [] => []
  | [p] => p
  | p :: parts' => p ++ sep ++ join sep parts'
  end.

(** The sentiment analyser of NLTK, as the desktop variant uses it: the
    scores of a text, the two comparisons of the compound score with the
    thresholds (on floating-point numbers) and the printing of the scores. *)
Record Analyzer := {
  scores : Type;
  polarity_scores : str -> scores;
  compound_ge_0_05 : scores -> bool;
  compound_le_minus_0_05 : scores -> bool;
  format_scores : scores -> str
}.

(** ** The desktop variant: [python experiment/.venv/Sanskrit_tokeniser.py] *)
Module Gui.
Section Program.
Variable rt : Runtime.

Definition normalize_text (text : str) : str :=
  unicodedata_normalize rt NFC text.

Definition strip_diacritics (text : str) : str :=
  let nfkd := unicodedata_normalize rt NFKD text in
  filter (fun ch => negb (truthy (unicodedata_combining rt ch))) nfkd.

Definition mapping : list (char * str) :=
  [ (0x101, [0x61]); (0x12B, [0x69]); (0x16B, [0x75]); (0x1E5B, [0x72]);
    (0x1E5D, [0x72]); (0x1E37, [0x6C]);
    (0x1E45, [0x6E]); (0xF1, [0x6E]); (0x1E47, [0x6E]); (0x1E63, [0x73]);
    (0x15B, [0x73]); (0x1E25, [0x68]); (0x1E41, [0x6D]);
    (0x100, [0x41]); (0x12A, [0x49]); (0x16A, [0x55]); (0x1E5A, [0x52]);
    (0x1E5C, [0x52]); (0x1E36, [0x4C]);
    (0x1E44, [0x4E]); (0xD1, [0x4E]); (0x1E46, [0x4E]); (0x1E62, [0x53]);
    (0x15A, [0x53]); (0x1E24, [0x48]); (0x1E40, [0x4D]) ].

Definition iast_to_ascii (text : str) : str :=
  flat_map (fun ch => dict_get mapping ch [ch]) text.

Definition WORD_RE : regex :=
  Cat (Plus (Class latin_letter))
      (Star (Cat (Class hyphen_apostrophe) (Plus (Class ascii_letter)))).

Definition NUMBER_RE : regex :=
  Cat (Plus (Class (isdecimal rt)))
      (Star (Cat (Class dot_comma) (Plus (Class (isdecimal rt))))).

(** [[^\s\w]] *)
Definition punct_class (c : char) : bool :=
  negb (isspace rt c || isword rt c).

Definition PUNCT_RE : regex := Class punct_class.

Definition prepare (text : str) (strip_diac ascii_map : bool) : str :=
  let text := normalize_text text in
  let text := if strip_diac then strip_diacritics text else text in
  let text := if ascii_map then iast_to_ascii text else text in
  text.

Definition tokenize (text : str) (strip_diac ascii_map : bool) : list str :=
  scan (isspace rt) NUMBER_RE WORD_RE PUNCT_RE
       (prepare text strip_diac ascii_map).

(** [re.fullmatch(r"[A-Za-z]+", t)] *)
Definition ENGLISH_RE : regex := Plus (Class ascii_letter).

(** ["Neutral (no English detected)"] *)
Definition no_english : str :=
  [0x4E; 0x65; 0x75; 0x74; 0x72; 0x61; 0x6C; 0x20; 0x28; 0x6E; 0x6F; 0x20;
   0x45; 0x6E; 0x67; 0x6C; 0x69; 0x73; 0x68; 0x20; 0x64; 0x65; 0x74; 0x65;
   0x63; 0x74; 0x65; 0x64; 0x29].

(** ["Positive"], ["Negative"], ["Neutral"] *)
Definition positive : str := [0x50; 0x6F; 0x73; 0x69; 0x74; 0x69; 0x76; 0x65].
Definition negative : str := [0x4E; 0x65; 0x67; 0x61; 0x74; 0x69; 0x76; 0x65].
Definition neutral : str := [0x4E; 0x65; 0x75; 0x74; 0x72; 0x61; 0x6C].

Definition english_sentiment (sia : Analyzer) (tokens : list str) : str :=
  let english_words := filter (re_fullmatch ENGLISH_RE) tokens in
  match english_words with
  | [] => no_english
  | _ =>
      let text := join [0x20] english_words in
      let scores := polarity_scores sia text in
      let label :=
        if compound_ge_0_05 sia scores then positive
        else if compound_le_minus_0_05 sia scores then negative
        else neutral in
      label ++ [0x0A; 0x53; 0x63; 0x6F; 0x72; 0x65; 0x73; 0x3A; 0x20]
            ++ format_scores sia scores
  end.

End Program.
End Gui.


(** ** The reference definition of diacritic stripping

    The specification's wording, to be compared with [strip_diacritics]:
    decompose to the canonical decomposition form, remove every code point
    classified as a combining mark, re-normalise to composed form.  The
    classification is Unicode's: [is_mark] holds of the code points of
    general category M (Mn, Mc, Me), which the program does not consult;
    the program tests the canonical combining class instead. *)
Definition strip_diacritics_reference (rt : Runtime) (is_mark : char -> bool)
  (text : str) : str :=
  let nfd := unicodedata_normalize rt NFD text in
  let stripped := filter (fun ch => negb (is_mark ch)) nfd in
  unicodedata_normalize rt NFC stripped.

(** ** An excerpt of the Unicode tables

    Enough of the Unicode Character Database to run the program on IAST
    text: the whitespace code points (all of them), the word and digit
    classes on Basic Latin, Latin-1, Latin Extended-A/B, Latin Extended
    Additional and the Latin ligatures, and the decompositions and
    combining classes of the letters of the program's [mapping] table and
    of the ligature U+FB01.  A code point without an entry is taken to have
    no decomposition and combining class 0, and a letter and a mark compose
    only into a letter of the table; the normalisation below is that of
    [unicodedata] on text written with these letters.  The combining marks
    (general category M) listed are the five marks of these letters and the
    Devanagari vowel sign U+093F, a spacing mark of combining class 0. *)
Module Excerpt.

(** The code points of general category M (Mn, Mc, Me). *)
Definition category_M : list char :=
  [ 0x301; 0x303; 0x304; 0x307; 0x323; 0x93F ].

Definition is_mark (c : char) : bool := mem c category_M.

Definition isspace (c : char) : bool :=
  in_range 0x09 0x0D c || in_range 0x1C 0x20 c || char_eqb c 0x85
  || char_eqb c 0xA0 || char_eqb c 0x1680 || in_range 0x2000 0x200A c
  || in_range 0x2028 0x2029 c || char_eqb c 0x202F || char_eqb c 0x205F
  || char_eqb c 0x3000.

Definition isdecimal (c : char) : bool := in_range 0x30 0x39 c.

Definition isword (c : char) : bool :=
  in_range 0x30 0x39 c || in_range 0x41 0x5A c || char_eqb c 0x5F
  || in_range 0x61 0x7A c || char_eqb c 0xAA || in_range 0xB2 0xB3 c
  || char_eqb c 0xB5 || in_range 0xB9 0xBA c || in_range 0xBC 0xBE c
  || in_range 0xC0 0xD6 c || in_range 0xD8 0xF6 c || in_range 0xF8 0x24F c
  || in_range 0x1E00 0x1EFF c || in_range 0xFB00 0xFB06 c.

(** Decomposition mappings; the flag marks a compatibility mapping. *)
Definition decomposition : list (char * (bool * str)) :=
  [ (0xD1, (false, [0x4E; 0x303])); (0xF1, (false, [0x6E; 0x303]));
    (0x100, (false, [0x41; 0x304])); (0x101, (false, [0x61; 0x304]));
    (0x12A, (false, [0x49; 0x304])); (0x12B, (false, [0x69; 0x304]));
    (0x15A, (false, [0x53; 0x301])); (0x15B, (false, [0x73; 0x301]));
    (0x16A, (false, [0x55; 0x304])); (0x16B, (false, [0x75; 0x304]));
    (0x1E0C, (false, [0x44; 0x323])); (0x1E0D, (false, [0x64; 0x323]));
    (0x1E24, (false, [0x48; 0x323])); (0x1E25, (false, [0x68; 0x323]));
    (0x1E36, (false, [0x4C; 0x323])); (0x1E37, (false, [0x6C; 0x323]));
    (0x1E38, (false, [0x1E36; 0x304])); (0x1E39, (false, [0x1E37; 0x304]));
    (0x1E40, (false, [0x4D; 0x307])); (0x1E41, (false, [0x6D; 0x307]));
    (0x1E44, (false, [0x4E; 0x307])); (0x1E45, (false, [0x6E; 0x307]));
    (0x1E46, (false, [0x4E; 0x323])); (0x1E47, (false, [0x6E; 0x323]));
    (0x1E5A, (false, [0x52; 0x323])); (0x1E5B, (false, [0x72; 0x323]));
    (0x1E5C, (false, [0x1E5A; 0x304])); (0x1E5D, (false, [0x1E5B; 0x304]));
    (0x1E62, (false, [0x53; 0x323])); (0x1E63, (false, [0x73; 0x323]));
    (0x1E6C, (false, [0x54; 0x323])); (0x1E6D, (false, [0x74; 0x323]));
    (0xFB01, (true, [0x66; 0x69])) ].

(** Canonical combining classes other than 0. *)
Definition combining_classes : list (char * Z) :=
  [ (0x301, 230); (0x303, 230); (0x304, 230); (0x307, 230); (0x323, 220) ].

Definition combining (c : char) : Z :=
  match find (fun kv => char_eqb (fst kv) c) combining_classes with
  | Some (_, k) => k
  | None => 0
  end.

(** Full decomposition of one code point, mappings applied at most
    [depth] deep; compatibility mappings only when [compat] is set. *)
Fixpoint decompose (compat : bool) (depth : nat) (c : char) : str :=
  match depth with
  | O => [c]
  | S depth' =>
      match find (fun kv => char_eqb (fst kv) c) decomposition with
      | Some (_, (is_compat, to)) =>
          if implb is_compat compat
          then flat_map (decompose compat depth') to
          else [c]
      | None => [c]
      end
  end.

(** Canonical ordering: a mark moves left past the marks of a higher
    class; [placed] is the text so far, last code point first. *)
Fixpoint place_mark (c : char) (placed : str) : str :=
  match placed with
  | x :: placed' =>
      if combining c <? combining x then x :: place_mark c placed'
      else c :: placed
  | [] => [c]
  end.

Definition canonical_order (s : str) : str :=
  rev (fold_left
         (fun placed c =>
            if combining c =? 0 then c :: placed else place_mark c placed)
         s []).

(** The primary composite of a pair: the code point that canonically
    decomposes to it. *)
Definition composite (a b : char) : option char :=
  match find (fun kv => let '(_, (is_compat, to)) := kv in
                        negb is_compat && str_eqb to [a; b]) decomposition with
  | Some (c, _) => Some c
  | None => None
  end.

(** Canonical composition of a decomposed, ordered text.  The state is the
    finished prefix, the last starter, and the marks after it that did not
    combine with it. *)
Record composing := {
  finished : str;
  starter : option char;
  marks : str
}.

Definition flush (st : composing) : str :=
  finished st
  ++ match starter st with Some s => [s] | None => [] end
  ++ marks st.

Definition blocked (st : composing) (c : char) : bool :=
  match rev (marks st) with
  | [] => false
  | m :: _ => combining c <=? combining m
  end.

Definition compose_step (st : composing) (c : char) : composing :=
  let fresh :=
    if combining c =? 0
    then {| finished := flush st; starter := Some c; marks := [] |}
    else {| finished := finished st; starter := starter st;
            marks := marks st ++ [c] |} in
  match starter st with
  | Some s =>
      if blocked st c then fresh
      else match composite s c with
           | Some p => {| finished := finished st; starter := Some p;
                          marks := marks st |}
           | None => fresh
           end
  | None => fresh
  end.

Definition compose (s : str) : str :=
  flush (fold_left compose_step s
           {| finished := []; starter := None; marks := [] |}).

Definition normalize (f : form) (s : str) : str :=
  match f with
  | NFD => canonical_order (flat_map (decompose false 4) s)
  | NFKD => canonical_order (flat_map (decompose true 4) s)
  | NFC => compose (canonical_order (flat_map (decompose false 4) s))
  | NFKC => compose (canonical_order (flat_map (decompose true 4) s))
  end.

Definition runtime : Runtime :=
  Build_Runtime isspace isdecimal isword normalize combining.

End Excerpt.

(** ** Two set iteration orders *)

Definition split_eq_dec (x y : str * str) : {x = y} + {x <> y}.
Proof.
  decide equality; apply (list_eq_dec Z.eq_dec).
Defined.

(** Iteration in the order of insertion. *)
Definition insertion_order : SetOrder.
Proof.
  refine {| set_iter := fun l => rev (nodup split_eq_dec (rev l)) |}.
  - intro l. apply NoDup_rev, NoDup_nodup.
  - intros l x. rewrite <- in_rev, nodup_In, <- in_rev. reflexivity.
Defined.

(** Iteration in the opposite order. *)
Definition reverse_order : SetOrder.
Proof.
  refine {| set_iter := fun l => nodup split_eq_dec (rev l) |}.
  - intro l. apply NoDup_nodup.
  - intros l x. rewrite nodup_In, <- in_rev. reflexivity.
Defined.


(** ** Example texts *)
Module Text.

(** ["ab"] *)
Definition ab : str := [0x61; 0x62].

(** [" abab"], with a leading space *)
Definition abab_padded : str := [0x20; 0x61; 0x62; 0x61; 0x62].

(** ["aaaaaa"] *)
Definition aaaaaa : str := [0x61; 0x61; 0x61; 0x61; 0x61; 0x61].

(** ["ahamasti"] *)
Definition ahamasti : str := [0x61; 0x68; 0x61; 0x6D; 0x61; 0x73; 0x74; 0x69].

(** ["guruḥkṛṣṇa"] *)
Definition guruh_krsna : str :=
  [0x67; 0x75; 0x72; 0x75; 0x1E25; 0x6B; 0x1E5B; 0x1E63; 0x1E47; 0x61].

(** ["kṛṣṇaḥrāma"] *)
Definition krsnah_rama : str :=
  [0x6B; 0x1E5B; 0x1E63; 0x1E47; 0x61; 0x1E25; 0x72; 0x101; 0x6D; 0x61].

(** ["aham vande gurūn."] *)
Definition aham_vande : str :=
  [0x61; 0x68; 0x61; 0x6D; 0x20; 0x76; 0x61; 0x6E; 0x64; 0x65; 0x20;
   0x67; 0x75; 0x72; 0x16B; 0x6E; 0x2E].

(** ["a-ā"]: a hyphen followed by an extended Latin letter *)
Definition a_hyphen_a_macron : str := [0x61; 0x2D; 0x101].

(** ["śiva-lila"]: a hyphen followed by ASCII letters *)
Definition siva_lila : str :=
  [0x15B; 0x69; 0x76; 0x61; 0x2D; 0x6C; 0x69; 0x6C; 0x61].

(** ["ﬁ"], the ligature U+FB01 *)
Definition fi_ligature : str := [0xFB01].

(** ["fi"] *)
Definition fi : str := [0x66; 0x69].

(** The Devanagari syllable ["कि"]: the letter U+0915 and the vowel sign
    U+093F *)
Definition ki : str := [0x915; 0x93F].

(** ["mokṣa"] *)
Definition moksa : str := [0x6D; 0x6F; 0x6B; 0x1E63; 0x61].

(** ["3.14 and 1,234 guys"] *)
Definition numbers : str :=
  [0x33; 0x2E; 0x31; 0x34; 0x20; 0x61; 0x6E; 0x64; 0x20; 0x31; 0x2C; 0x32;
   0x33; 0x34; 0x20; 0x67; 0x75; 0x79; 0x73].

End Text.

(** ** Predicates of the statements *)

(** [rest] is what is left of [s] after a prefix. *)
Definition is_suffix (rest s : str) : Prop := exists pre, s = pre ++ rest.

(** Patterns that match no empty string. *)
Fixpoint nonempty (r : regex) : bool :=
  match r with
  | Class _ => true
  | Cat a b => nonempty a || nonempty b
  | Star _ => false
  | Plus a => nonempty a
  end.

(** Tokens put back between whitespace runs: [g0 t1 g1 ... tn gn]. *)
Fixpoint interleave (gaps tokens : list str) : str :=
  match gaps, tokens with
  | g :: gaps', t :: tokens' => g ++ t ++ interleave gaps' tokens'
  | g :: _, [] => g
  | [], _ => []
  end.

(** The first code point of a fragment is a vowel. *)
Definition vowel_onset (R : str) : bool :=
  match R with
  | c :: _ => mem c Cli.VOWELS
  | [] => false
  end.

(** The last code point of a fragment is a vowel. *)
Definition vowel_coda (L : str) : bool :=
  match rev L with
  | c :: _ => mem c Cli.VOWELS
  | [] => false
  end.

(** The split of a token at an index. *)
Definition split_at (token : str) (i : nat) : str * str :=
  (slice_to token i, slice_from token i).

(** A split index fires when the right fragment starts with a vowel or the
    left one ends with the visarga. *)
Definition fires (token : str) (i : nat) : bool :=
  vowel_onset (slice_from token i) || endswith (slice_to token i) Cli.visarga.

(** The candidates of a token in the order of their split indices. *)
Definition candidates_by_index (token : str) (min_part_len : nat)
  : list (str * str) :=
  if (length token <? min_part_len * 2)%nat then []
  else
    map (split_at token)
      (filter (fires token)
              (range min_part_len (length token - min_part_len + 1))).

(** Among candidates of equal score, the one of the smaller split index
    comes first. *)
Definition ties_by_index (l : list (str * str)) : Prop :=
  forall i j x y,
    nth_error l i = Some x -> nth_error l j = Some y -> (i < j)%nat ->
    Cli.score x = Cli.score y ->
    (length (fst x) < length (fst y))%nat.

(** The letters after a hyphen or an apostrophe: the run of Latin letters
    at the start of [s] is made of ASCII letters. *)
Fixpoint ascii_run (s : str) : bool :=
  match s with
  | c :: s' => if latin_letter c then ascii_letter c && ascii_run s' else true
  | [] => true
  end.

(** No hyphen or apostrophe of [s] is followed by a run of letters with an
    extended Latin letter in it. *)
Fixpoint ascii_continuations (s : str) : bool :=
  match s with
  | c :: s' =>
      (if hyphen_apostrophe c then ascii_run s' else true)
      && ascii_continuations s'
  | [] => true
  end.

(** What one token becomes in the sandhi-splitting pipeline. *)
Inductive expansion (rt : Runtime) (so : SetOrder) (t : str) : list str -> Prop :=
| expansion_split L R rest :
    re_fullmatch Cli.WORD_RE t = true ->
    Cli.simple_sandhi_splits rt so t Cli.default_min_part_len
      = Ok ((L, R) :: rest) ->
    expansion rt so t [L; R]
| expansion_no_candidate :
    re_fullmatch Cli.WORD_RE t = true ->
    Cli.simple_sandhi_splits rt so t Cli.default_min_part_len = Ok [] ->
    expansion rt so t [t]
| expansion_not_word :
    re_fullmatch Cli.WORD_RE t = false ->
    expansion rt so t [t].

(** The strings a pattern matches. *)
Inductive matches : regex -> str -> Prop :=
| matches_class p c : p c = true -> matches (Class p) [c]
| matches_cat a b u v :
    matches a u -> matches b v -> matches (Cat a b) (u ++ v)
| matches_star_nil a : matches (Star a) []
| matches_star_cons a u v :
    matches a u -> matches (Star a) v -> matches (Star a) (u ++ v)
| matches_plus a u v :
    matches a u -> matches (Star a) v -> matches (Plus a) (u ++ v).

(** The first and the last code point of [t] are in the class [p]. *)
Definition starts_with (p : char -> bool) (t : str) : Prop :=
  exists c r, t = c :: r /\ p c = true.

Definition ends_with (p : char -> bool) (t : str) : Prop :=
  exists r c, t = r ++ [c] /\ p c = true.

(** Digits with single dots or commas inside: ["3.14"], ["1,234"]. *)
Definition number_shaped (rt : Runtime) (t : str) : Prop :=
  starts_with (isdecimal rt) t /\ ends_with (isdecimal rt) t
  /\ Forall (fun c => isdecimal rt c = true \/ dot_comma c = true) t.

(** Latin letters with single hyphens or apostrophes inside. *)
Definition word_shaped (t : str) : Prop :=
  starts_with latin_letter t /\ ends_with latin_letter t
  /\ Forall (fun c => latin_letter c = true \/ hyphen_apostrophe c = true) t.

(** A whitespace code point that no pattern takes for a digit, a letter or
    a separator. *)
Definition blank (rt : Runtime) (c : char) : Prop :=
  isspace rt c = true /\ isdecimal rt c = false /\ latin_letter c = false
  /\ dot_comma c = false /\ hyphen_apostrophe c = false.

(** The code points a pattern can consume. *)
Fixpoint alphabet (r : regex) (c : char) : bool :=
  match r with
  | Class p => p c
  | Cat a b => alphabet a c || alphabet b c
  | Star a => alphabet a c
  | Plus a => alphabet a c
  end.

(** What a round of the scanner may record: a skipped whitespace code
    point, or a token that starts with a code point that is no whitespace
    and is a match of one of the patterns or that single code point. *)
Definition round_ok (space : char -> bool) (NUMBER_RE WORD_RE PUNCT_RE : regex)
  (p : piece) : Prop :=
  match p with
  | Skipped c => space c = true
  | Emitted t =>
      exists c r, t = c :: r /\ space c = false
        /\ (matches NUMBER_RE t \/ matches WORD_RE t \/ matches PUNCT_RE t
            \/ r = [])
  end.

(** The first code point of a token decides which rule made it: a digit
    begins a match of the number pattern, a letter that is no digit a match
    of the word pattern, any other code point stands alone. *)
Definition token_kind (digit letter : char -> bool) (NUMBER_RE WORD_RE : regex)
  (t : str) : Prop :=
  exists c r, t = c :: r
    /\ (if digit c then matches NUMBER_RE t
        else if letter c then matches WORD_RE t
        else r = []).

(** A token made of ASCII letters, at least one. *)
Definition english (t : str) : bool :=
  match t with
  | [] => false
  | _ => forallb ascii_letter t
  end.

(** An analyser that finds every text neutral and prints no score. *)
Definition flat_analyzer : Analyzer :=
  {| scores := unit;
     polarity_scores := fun _ => tt;
     compound_ge_0_05 := fun _ => false;
     compound_le_minus_0_05 := fun _ => false;
     format_scores := fun _ => [] |}.

(** The letters a transliteration table maps. *)
Definition is_key (mapping : list (char * str)) (c : char) : bool :=
  existsb (fun kv => char_eqb (fst kv) c) mapping.

(** Every value of a table is one ASCII letter, and no value is a key. *)
Definition plain_values (mapping : list (char * str)) : bool :=
  forallb (fun kv => match snd kv with
                     | [d] => ascii_letter d && negb (is_key mapping d)
                     | _ => false
                     end) mapping.

(** The letters only the command-line table maps: [ḹ], [ḍ], [ṭ], [Ḍ],
    [Ṭ]. *)
Definition cli_only_keys : list char :=
  [0x1E39; 0x1E0D; 0x1E6D; 0x1E0C; 0x1E6C].

(** * Properties *)

(** ** The program on the example texts *)

(** ["aham vande gurūn."] is scanned into ["aham"], ["vande"], ["gurūn"],
    ["."]. *)
Example scan_aham_vande :
  Cli.basic_tokenize Excerpt.runtime Text.aham_vande true false false
  = [ [0x61; 0x68; 0x61; 0x6D]; [0x76; 0x61; 0x6E; 0x64; 0x65];
      [0x67; 0x75; 0x72; 0x16B; 0x6E]; [0x2E] ].
Proof. reflexivity. Qed.

(** ["3.14 and 1,234 guys"]: the numbers are single tokens. *)
Example scan_numbers :
  Cli.basic_tokenize Excerpt.runtime Text.numbers true false false
  = [ [0x33; 0x2E; 0x31; 0x34]; [0x61; 0x6E; 0x64];
      [0x31; 0x2C; 0x32; 0x33; 0x34]; [0x67; 0x75; 0x79; 0x73] ].
Proof. reflexivity. Qed.

(** ["mokṣa"] loses its dot below. *)
Example strip_moksa :
  Cli.strip_diacritics Excerpt.runtime Text.moksa
  = [0x6D; 0x6F; 0x6B; 0x73; 0x61].
Proof. reflexivity. Qed.

(** ["ahamasti"]: the balanced split ["aham" | "asti"] comes first. *)
Example splits_ahamasti :
  Cli.simple_sandhi_splits Excerpt.runtime insertion_order Text.ahamasti 2
  = Ok [ ([0x61; 0x68; 0x61; 0x6D], [0x61; 0x73; 0x74; 0x69]);
         ([0x61; 0x68], [0x61; 0x6D; 0x61; 0x73; 0x74; 0x69]) ].
Proof. reflexivity. Qed.

(** ["ab"] is too short for two parts of length 2. *)
Example splits_ab :
  Cli.simple_sandhi_splits Excerpt.runtime insertion_order Text.ab 2 = Ok [].
Proof. reflexivity. Qed.

(** ["ab"] with [min_part_len = 0]: the call raises. *)
Example splits_ab_zero :
  Cli.simple_sandhi_splits Excerpt.runtime insertion_order Text.ab 0
  = Raise IndexError.
Proof. reflexivity. Qed.

(** ["kṛṣṇaḥrāma"], diacritics stripped and sandhi splitting on, becomes
    ["krsn"], ["ahrama"]. *)
Example pipeline_krsnah_rama :
  Cli.pipeline_tokenize Excerpt.runtime insertion_order Text.krsnah_rama
    true true false true
  = Ok [ [0x6B; 0x72; 0x73; 0x6E]; [0x61; 0x68; 0x72; 0x61; 0x6D; 0x61] ].
Proof. reflexivity. Qed.

(** ** The pattern matcher *)

Lemma is_suffix_refl s : is_suffix s s.
Proof. exists []. reflexivity. Qed.

Lemma is_suffix_trans a b c : is_suffix a b -> is_suffix b c -> is_suffix a c.
Proof.
  intros [p Hp] [q Hq]. exists (q ++ p). subst. now rewrite app_assoc.
Qed.

Lemma is_suffix_length rest s : is_suffix rest s -> (length rest <= length s)%nat.
Proof. intros [p ->]. rewrite length_app. lia. Qed.

Lemma is_suffix_cons c s : is_suffix s (c :: s).
Proof. exists [c]. reflexivity. Qed.

Lemma iterate_suffix step :
  (forall s rest, In rest (step s) -> is_suffix rest s) ->
  forall fuel s rest, In rest (iterate step fuel s) -> is_suffix rest s.
Proof.
  intros Hstep fuel. induction fuel as [|fuel IH]; intros s rest Hin; simpl in Hin.
  - destruct Hin as [<-|[]]. apply is_suffix_refl.
  - apply in_app_or in Hin. destruct Hin as [Hin|[<-|[]]].
    + apply in_flat_map in Hin. destruct Hin as [s' [Hs' Hin]].
      destruct (length s' <? length s)%nat; [|contradiction].
      eapply is_suffix_trans; [apply IH, Hin | apply Hstep, Hs'].
    + apply is_suffix_refl.
Qed.

Lemma run_suffix r : forall s rest, In rest (run r s) -> is_suffix rest s.
Proof.
  induction r as [p|a IHa b IHb|a IHa|a IHa]; intros s rest Hin; simpl in Hin.
  - destruct s as [|c s']; [contradiction|].
    destruct (p c); [|contradiction].
    destruct Hin as [<-|[]]. apply is_suffix_cons.
  - apply in_flat_map in Hin. destruct Hin as [s' [Hs' Hin]].
    eapply is_suffix_trans; [apply IHb, Hin | apply IHa, Hs'].
  - eapply iterate_suffix; eauto.
  - apply in_flat_map in Hin. destruct Hin as [s' [Hs' Hin]].
    eapply is_suffix_trans; [|apply IHa, Hs'].
    eapply iterate_suffix; eauto.
Qed.

Lemma run_shorter r :
  nonempty r = true ->
  forall s rest, In rest (run r s) -> (length rest < length s)%nat.
Proof.
  induction r as [p|a IHa b IHb|a IHa|a IHa]; simpl; intros Hne s rest Hin.
  - destruct s as [|c s']; [contradiction|].
    destruct (p c); [|contradiction].
    destruct Hin as [<-|[]]. simpl. lia.
  - apply in_flat_map in Hin. destruct Hin as [s' [Hs' Hin]].
    pose proof (is_suffix_length (run_suffix _ _ _ Hs')).
    pose proof (is_suffix_length (run_suffix _ _ _ Hin)).
    apply orb_true_iff in Hne. destruct Hne as [Hne|Hne].
    + specialize (IHa Hne _ _ Hs'). lia.
    + specialize (IHb Hne _ _ Hin). lia.
  - discriminate.
  - apply in_flat_map in Hin. destruct Hin as [s' [Hs' Hin]].
    specialize (IHa Hne _ _ Hs').
    pose proof (is_suffix_length (iterate_suffix _ (run_suffix a) _ _ _ Hin)).
    lia.
Qed.

Lemma iterate_not_nil step fuel s : iterate step fuel s <> [].
Proof.
  destruct fuel; simpl; [discriminate|].
  intro H. apply app_eq_nil in H. destruct H. discriminate.
Qed.

(** A match starts at the cursor and ends inside the text; the end is past
    the cursor when the pattern matches no empty string. *)
Lemma re_match_span r text pos m :
  (pos <= length text)%nat ->
  re_match r text pos = Some m ->
  fst m = pos /\ (pos <= snd m <= length text)%nat
  /\ (nonempty r = true -> (pos < snd m)%nat).
Proof.
  unfold re_match. intros Hpos Hm.
  destruct (run r (skipn pos text)) as [|rest others] eqn:Hrun; [discriminate|].
  injection Hm as <-. simpl.
  assert (Hin : In rest (run r (skipn pos text))) by (rewrite Hrun; left; auto).
  pose proof (is_suffix_length (run_suffix _ _ _ Hin)) as Hle.
  rewrite length_skipn in Hle.
  split; [reflexivity|]. split; [lia|].
  intro Hne. pose proof (run_shorter _ Hne _ _ Hin) as Hlt.
  rewrite length_skipn in Hlt. lia.
Qed.

(** ** Slices *)

Lemma firstn_add_skipn (u : str) a b :
  firstn a u ++ firstn b (skipn a u) = firstn (a + b) u.
Proof.
  revert u. induction a as [|a IH]; intros u; simpl; [reflexivity|].
  destruct u as [|c u]; simpl.
  - now rewrite firstn_nil.
  - now rewrite IH.
Qed.

Lemma slice_app text i j k :
  (i <= j)%nat -> (j <= k)%nat ->
  slice text i j ++ slice text j k = slice text i k.
Proof.
  intros Hij Hjk. unfold slice.
  replace (skipn j text) with (skipn (j - i) (skipn i text)).
  - rewrite firstn_add_skipn. f_equal. lia.
  - rewrite skipn_skipn. f_equal. lia.
Qed.

Lemma slice_empty text i : slice text i i = [].
Proof. unfold slice. now rewrite Nat.sub_diag. Qed.

Lemma slice_all text : slice text 0 (length text) = text.
Proof. unfold slice. simpl. rewrite Nat.sub_0_r. apply firstn_all. Qed.

Lemma slice_one text i c :
  nth_error text i = Some c -> slice text i (i + 1) = [c].
Proof.
  unfold slice. replace (i + 1 - i)%nat with 1%nat by lia.
  revert i. induction text as [|x text IH]; intros [|i]; simpl; try discriminate.
  - now intros [= ->].
  - apply IH.
Qed.

(** ** The scanner: progress, termination, losslessness *)
Section ScannerFacts.
Variable space : char -> bool.
Variables NUMBER_RE WORD_RE PUNCT_RE : regex.
Hypothesis number_nonempty : nonempty NUMBER_RE = true.
Hypothesis word_nonempty : nonempty WORD_RE = true.
Hypothesis punct_nonempty : nonempty PUNCT_RE = true.

Local Abbreviation body := (scan_body space NUMBER_RE WORD_RE PUNCT_RE).
Local Abbreviation loop := (scan_loop space NUMBER_RE WORD_RE PUNCT_RE).
Local Abbreviation trace := (scan_trace space NUMBER_RE WORD_RE PUNCT_RE).

(** What one round does: it moves the cursor forward, inside the text, and
    appends nothing (whitespace) or the text it moved over. *)
Lemma scan_body_spec text c st :
  nth_error text (cursor st) = Some c ->
  (cursor st < cursor (body text c st) <= length text)%nat
  /\ tokens (body text c st)
     = tokens st
       ++ trace_tokens
            [body_piece space NUMBER_RE WORD_RE PUNCT_RE text c st].
Proof.
  intros Hc.
  assert (Hlt : (cursor st < length text)%nat).
  { apply nth_error_Some. rewrite Hc. discriminate. }
  assert (Hemit : forall r m,
             nonempty r = true -> re_match r text (cursor st) = Some m ->
             (cursor st < cursor (emit text m st) <= length text)%nat
             /\ tokens (emit text m st)
                = tokens st
                  ++ [slice text (cursor st) (cursor (emit text m st))]).
  { intros r m Hne Hm.
    destruct (re_match_span r text (Nat.lt_le_incl _ _ Hlt) Hm)
      as [Hfst [Hle Hprog]].
    specialize (Hprog Hne). unfold emit, group0, m_end. simpl.
    rewrite Hfst. split; [lia | reflexivity]. }
  unfold body_piece, scan_body.
  destruct (space c) eqn:Hsp.
  - simpl. rewrite app_nil_r. split; [lia | reflexivity].
  - destruct (re_match NUMBER_RE text (cursor st)) as [m|] eqn:Hn;
      [exact (Hemit _ _ number_nonempty Hn)|].
    destruct (re_match WORD_RE text (cursor st)) as [m|] eqn:Hw;
      [exact (Hemit _ _ word_nonempty Hw)|].
    destruct (re_match PUNCT_RE text (cursor st)) as [m|] eqn:Hp;
      [exact (Hemit _ _ punct_nonempty Hp)|].
    simpl. rewrite (slice_one _ _ Hc). split; [lia | reflexivity].
Qed.

Lemma scan_body_advances text c st :
  nth_error text (cursor st) = Some c ->
  (cursor st < cursor (body text c st) <= length text)%nat.
Proof. intro Hc. apply (scan_body_spec _ _ Hc). Qed.

(** With as many rounds as code points are left, the loop ends because its
    guard fails, with the cursor at the end of the text. *)
Lemma scan_loop_exits fuel : forall text st,
  (cursor st <= length text)%nat ->
  (length text - cursor st <= fuel)%nat ->
  cursor (loop fuel text st) = length text.
Proof.
  induction fuel as [|fuel IH]; intros text st Hle Hfuel; simpl.
  - lia.
  - destruct (nth_error text (cursor st)) as [c|] eqn:Hc.
    + pose proof (scan_body_advances _ _ Hc) as Hadv.
      apply IH; lia.
    + apply nth_error_None in Hc. lia.
Qed.

(** More rounds than that change nothing. *)
Lemma scan_loop_enough fuel : forall fuel' text st,
  (length text - cursor st <= fuel)%nat ->
  (length text - cursor st <= fuel')%nat ->
  loop fuel text st = loop fuel' text st.
Proof.
  induction fuel as [|fuel IH]; intros fuel' text st Hf Hf'.
  - destruct fuel'; simpl; [reflexivity|].
    destruct (nth_error text (cursor st)) eqn:Hc; [|reflexivity].
    assert ((cursor st < length text)%nat)
      by (apply nth_error_Some; rewrite Hc; discriminate).
    lia.
  - simpl. destruct (nth_error text (cursor st)) as [c|] eqn:Hc.
    + pose proof (scan_body_advances _ _ Hc) as Hadv.
      destruct fuel' as [|fuel']; [lia|].
      simpl. rewrite Hc. apply IH; lia.
    + destruct fuel'; simpl; [reflexivity|]. now rewrite Hc.
Qed.

(** The record of the rounds accounts for the text between the first and
    the last cursor and for the tokens appended. *)
Lemma scan_trace_spec fuel : forall text st,
  (cursor st <= length text)%nat ->
  trace_text (trace fuel text st)
    = slice text (cursor st) (cursor (loop fuel text st))
  /\ tokens (loop fuel text st) = tokens st ++ trace_tokens (trace fuel text st)
  /\ Forall (skipped_space space) (trace fuel text st)
  /\ (cursor st <= cursor (loop fuel text st) <= length text)%nat.
Proof.
  induction fuel as [|fuel IH]; intros text st Hle; simpl.
  - rewrite slice_empty, app_nil_r. repeat split; auto.
  - destruct (nth_error text (cursor st)) as [c|] eqn:Hc.
    + destruct (scan_body_spec _ _ Hc) as [Hadv Htok].
      destruct (IH text (body text c st)) as [Htext [Htoks [Hsp Hcur]]];
        [lia|].
      repeat split; try lia.
      * unfold trace_text in *. simpl. rewrite Htext.
        rewrite <- (slice_app text (i := cursor st)
                      (j := cursor (body text c st))) by lia.
        f_equal. unfold body_piece.
        destruct (space c) eqn:Hspc; simpl; [|reflexivity].
        unfold scan_body. rewrite Hspc. simpl.
        symmetry. apply slice_one, Hc.
      * rewrite Htoks, Htok. rewrite <- app_assoc. f_equal.
        destruct (body_piece space NUMBER_RE WORD_RE PUNCT_RE text c st);
          reflexivity.
      * constructor; [|exact Hsp].
        unfold body_piece. destruct (space c) eqn:Hspc; simpl; auto.
    + rewrite slice_empty, app_nil_r. repeat split; auto.
Qed.

End ScannerFacts.

(** ** The sandhi splitter *)

Lemma index_last_rev L :
  index_last L = match rev L with c :: _ => Ok c | [] => Raise IndexError end.
Proof.
  induction L as [|x L IH]; [reflexivity|].
  simpl rev. destruct L as [|y L]; [reflexivity|].
  change (index_last (x :: y :: L)) with (index_last (y :: L)).
  rewrite IH. destruct (rev (y :: L)) as [|c r] eqn:Hr; [|reflexivity].
  apply (f_equal (@length _)) in Hr. rewrite length_rev in Hr. discriminate.
Qed.

(** With an empty left fragment the first test already raises. *)
Lemma heuristic_empty_left R : Cli.heuristic [] R = Raise IndexError.
Proof. reflexivity. Qed.

(** On non-empty fragments no test raises, and the chain of tests selects
    as follows. *)
Lemma heuristic_value L R :
  L <> [] -> R <> [] ->
  Cli.heuristic L R
  = Ok (if vowel_coda L && vowel_onset R then Some 1%nat
        else if vowel_onset R then Some 2%nat
        else if endswith L Cli.visarga then Some 3%nat
        else None).
Proof.
  intros HL HR. unfold Cli.heuristic, vowel_coda.
  rewrite index_last_rev.
  destruct (rev L) as [|d r] eqn:Hrev.
  { apply (f_equal (@length _)) in Hrev. rewrite length_rev in Hrev.
    destruct L; [congruence | discriminate]. }
  destruct R as [|c R']; [congruence|].
  unfold Cli.in_vowels, Cli.not_in_vowels, Cli.and_then, Cli.or_else,
    index_first, vowel_onset, bind.
  generalize (mem d Cli.VOWELS) (mem c Cli.VOWELS)
    (endswith L Cli.visarga) (endswith L Cli.plain_h).
  intros [] [] [] []; reflexivity.
Qed.

Lemma try_splits_value token : forall indices acc,
  (forall i, In i indices -> (0 < i < length token)%nat) ->
  Cli.try_splits token indices acc
  = Ok (acc ++ map (split_at token) (filter (fires token) indices)).
Proof.
  induction indices as [|i indices IH]; intros acc Hin; simpl.
  - now rewrite app_nil_r.
  - assert (Hi : (0 < i < length token)%nat) by (apply Hin; now left).
    rewrite heuristic_value.
    + unfold fires at 1. unfold bind.
      destruct (vowel_onset (slice_from token i)) eqn:Hon.
      * rewrite orb_true_l.
        destruct (vowel_coda (slice_to token i)); simpl;
          (rewrite IH by (intros; apply Hin; now right));
          now rewrite <- app_assoc.
      * rewrite andb_false_r, orb_false_l.
        destruct (endswith (slice_to token i) Cli.visarga);
          (rewrite IH by (intros; apply Hin; now right)); simpl;
          [now rewrite <- app_assoc | reflexivity].
    + unfold slice_to. intro H. apply (f_equal (@length _)) in H.
      rewrite length_firstn in H. simpl in H. lia.
    + unfold slice_from. intro H. apply (f_equal (@length _)) in H.
      rewrite length_skipn in H. simpl in H. lia.
Qed.

Lemma set_iter_nil so : set_iter so [] = [].
Proof.
  destruct (set_iter so []) as [|x l] eqn:H; [reflexivity|].
  exfalso. apply (proj1 (set_iter_In so [] x)). rewrite H. now left.
Qed.

Lemma sorted_nil (key : str * str -> Z) : sorted key [] = [].
Proof. reflexivity. Qed.

Lemma range_In a b i : In i (range a b) <-> (a <= i < b)%nat.
Proof. unfold range. rewrite in_seq. lia. Qed.

(** From [min_part_len = 1] on the generator raises nothing: it returns the
    candidates of the stripped token, as a set, sorted by score. *)
Lemma simple_sandhi_splits_value rt so token min_part_len :
  (1 <= min_part_len)%nat ->
  Cli.simple_sandhi_splits rt so token min_part_len
  = Ok (sorted Cli.score
          (set_iter so
             (candidates_by_index (strip (isspace rt) token) min_part_len))).
Proof.
  intros Hmin. unfold Cli.simple_sandhi_splits, candidates_by_index.
  set (t := strip (isspace rt) token).
  destruct (length t <? min_part_len * 2)%nat eqn:Hshort.
  - now rewrite set_iter_nil.
  - apply Nat.ltb_ge in Hshort.
    rewrite try_splits_value; [reflexivity|].
    intros i Hi. apply range_In in Hi. lia.
Qed.

(** At [min_part_len = 0] the first split index is 0, the left fragment is
    empty and [L[-1]] raises. *)
Lemma try_splits_from_zero token indices acc :
  Cli.try_splits token (0%nat :: indices) acc = Raise IndexError.
Proof. reflexivity. Qed.

(** ** Sorting *)
Section SortedFacts.
Context {A : Type} (key : A -> Z).

Local Abbreviation by_key := (fun x y : A => key x <= key y).

Lemma insert_by_perm x l : Permutation (x :: l) (insert_by key x l).
Proof.
  induction l as [|y l IH]; simpl; [reflexivity|].
  destruct (key x <=? key y); [reflexivity|].
  rewrite perm_swap. now constructor.
Qed.

Lemma sorted_perm l : Permutation l (sorted key l).
Proof.
  induction l as [|x l IH]; simpl; [constructor|].
  rewrite <- insert_by_perm. now constructor.
Qed.

Lemma insert_by_sorted x l :
  StronglySorted by_key l -> StronglySorted by_key (insert_by key x l).
Proof.
  induction 1 as [|y l Hs IH Hall]; simpl.
  - repeat constructor.
  - destruct (key x <=? key y) eqn:Hcmp.
    + apply Z.leb_le in Hcmp. constructor; [now constructor|].
      constructor; [exact Hcmp|].
      eapply Forall_impl; [|exact Hall]. simpl. intros. lia.
    + apply Z.leb_gt in Hcmp. constructor; [exact IH|].
      rewrite <- insert_by_perm. constructor; [lia | exact Hall].
Qed.

Lemma sorted_sorted l : StronglySorted by_key (sorted key l).
Proof.
  induction l as [|x l IH]; simpl; [constructor|].
  now apply insert_by_sorted.
Qed.

(** Stability: the elements of one key keep their order. *)
Lemma insert_by_stable k x l :
  filter (fun y => key y =? k) (insert_by key x l)
  = filter (fun y => key y =? k) (x :: l).
Proof.
  induction l as [|y l IH]; [reflexivity|].
  simpl insert_by. destruct (key x <=? key y) eqn:Hcmp; [reflexivity|].
  apply Z.leb_gt in Hcmp.
  cbn [filter] in *. rewrite IH.
  destruct (key x =? k) eqn:Hx; [|reflexivity].
  apply Z.eqb_eq in Hx.
  replace (key y =? k) with false; [reflexivity|].
  symmetry. apply Z.eqb_neq. lia.
Qed.

Lemma sorted_stable k l :
  filter (fun y => key y =? k) (sorted key l) = filter (fun y => key y =? k) l.
Proof.
  induction l as [|x l IH]; [reflexivity|].
  simpl sorted. rewrite insert_by_stable. cbn [filter]. now rewrite IH.
Qed.

Lemma sorted_In x l : In x (sorted key l) <-> In x l.
Proof.
  split; apply Permutation_in;
    [symmetry|]; apply sorted_perm.
Qed.

End SortedFacts.

(** ** Whitespace stripping *)

Lemma lstrip_suffix space s : is_suffix (lstrip space s) s.
Proof.
  induction s as [|c s IH]; simpl; [apply is_suffix_refl|].
  destruct (space c); [|apply is_suffix_refl].
  eapply is_suffix_trans; [exact IH | apply is_suffix_cons].
Qed.

Lemma strip_length space s : (length (strip space s) <= length s)%nat.
Proof.
  unfold strip, rstrip. rewrite length_rev.
  pose proof (is_suffix_length (lstrip_suffix space (rev (lstrip space s)))) as H1.
  pose proof (is_suffix_length (lstrip_suffix space s)) as H2.
  rewrite length_rev in H1. lia.
Qed.

Lemma lstrip_clean space s :
  (forall c, In c s -> space c = false) -> lstrip space s = s.
Proof.
  destruct s as [|c s]; [reflexivity|]. intros H. simpl.
  now rewrite (H c (or_introl eq_refl)).
Qed.

(** A string without whitespace is left as it is. *)
Lemma strip_clean space s :
  (forall c, In c s -> space c = false) -> strip space s = s.
Proof.
  intros H. unfold strip, rstrip.
  rewrite (lstrip_clean space s H), lstrip_clean.
  - apply rev_involutive.
  - intros c Hc. apply H. now apply in_rev.
Qed.

(** ** The candidates *)

Lemma split_at_spec token i L R :
  (i <= length token)%nat -> split_at token i = (L, R) ->
  L ++ R = token /\ length L = i /\ length R = (length token - i)%nat.
Proof.
  unfold split_at, slice_to, slice_from. intros Hi [= <- <-].
  rewrite firstn_skipn, length_firstn, length_skipn. repeat split; lia.
Qed.

Lemma split_at_inj token i j :
  (i <= length token)%nat -> (j <= length token)%nat ->
  split_at token i = split_at token j -> i = j.
Proof.
  intros Hi Hj H.
  destruct (split_at_spec Hi eq_refl) as [_ [Hl _]].
  destruct (split_at_spec Hj (eq_sym H)) as [_ [Hl' _]].
  congruence.
Qed.

Lemma candidates_In token min_part_len x :
  In x (candidates_by_index token min_part_len)
  <-> exists i, (min_part_len <= i /\ i + min_part_len <= length token)%nat
                /\ fires token i = true /\ split_at token i = x.
Proof.
  unfold candidates_by_index.
  destruct (length token <? min_part_len * 2)%nat eqn:Hshort.
  - apply Nat.ltb_lt in Hshort. split; [contradiction|].
    intros [i [Hi _]]. lia.
  - apply Nat.ltb_ge in Hshort. rewrite in_map_iff. split.
    + intros [i [Hx Hi]]. apply filter_In in Hi. destruct Hi as [Hi Hf].
      apply range_In in Hi. exists i. repeat split; auto; lia.
    + intros [i [Hi [Hf Hx]]]. exists i. split; [exact Hx|].
      apply filter_In. split; [|exact Hf]. apply range_In. lia.
Qed.

Lemma candidates_NoDup token min_part_len :
  NoDup (candidates_by_index token min_part_len).
Proof.
  unfold candidates_by_index.
  destruct (length token <? min_part_len * 2)%nat eqn:Hshort; [constructor|].
  apply Nat.ltb_ge in Hshort.
  apply NoDup_map_NoDup_ForallPairs.
  - intros i j Hi Hj. apply filter_In in Hi, Hj.
    destruct Hi as [Hi _], Hj as [Hj _]. apply range_In in Hi, Hj.
    apply split_at_inj; lia.
  - apply NoDup_filter, seq_NoDup.
Qed.

(** The returned sequence has the candidates as its elements. *)
Lemma result_In so token min_part_len x :
  In x (sorted Cli.score
          (set_iter so (candidates_by_index token min_part_len)))
  <-> In x (candidates_by_index token min_part_len).
Proof. rewrite sorted_In. apply set_iter_In. Qed.

(** ** The claims on the sandhi candidate generator *)

(** C1 (the code departs from it).  The generator is claimed total for
    every non-negative [min_part_len], [0] included.  At
    [min_part_len = 0] it raises instead, whatever the token: the guard
    [n < 0] never holds, the first split index is [0], the left fragment is
    empty and [L[-1]] is an [IndexError]. *)
Theorem simple_sandhi_splits_raises_at_zero (rt : Runtime) (so : SetOrder)
  (token : str) :
  Cli.simple_sandhi_splits rt so token 0 = Raise IndexError.
Proof.
  unfold Cli.simple_sandhi_splits, range.
  set (t := strip (isspace rt) token).
  replace (length t <? 0 * 2)%nat with false
    by (symmetry; apply Nat.ltb_ge; lia).
  replace (length t - 0 + 1 - 0)%nat with (S (length t)) by lia.
  reflexivity.
Qed.

(** C2 (amended).  For every token [t] and every [min_part_len >= 1] the
    generator returns a sequence, and every candidate [(L, R)] of it
    satisfies [L + R == t.strip()], [len(L) >= min_part_len] and
    [len(R) >= min_part_len], both fragments being non-empty; the sequence
    is empty whenever [len(t) < 2 * min_part_len]. *)
Theorem split_validity (rt : Runtime) (so : SetOrder) (token : str)
  (min_part_len : nat) :
  (1 <= min_part_len)%nat ->
  exists l,
    Cli.simple_sandhi_splits rt so token min_part_len = Ok l
    /\ (forall L R, In (L, R) l ->
          L ++ R = strip (isspace rt) token
          /\ (min_part_len <= length L)%nat
          /\ (min_part_len <= length R)%nat
          /\ L <> [] /\ R <> [])
    /\ ((length token < 2 * min_part_len)%nat -> l = []).
Proof.
  intros Hmin. eexists. split; [apply simple_sandhi_splits_value, Hmin|].
  set (t := strip (isspace rt) token). split.
  - intros L R Hin. apply result_In, candidates_In in Hin.
    destruct Hin as [i [Hi [_ Hsplit]]].
    destruct (split_at_spec (token := t) (i := i) ltac:(lia) Hsplit)
      as [Happ [HL HR]].
    repeat split; try lia; try exact Happ.
    + intros ->. simpl in HL. lia.
    + intros ->. simpl in HR. lia.
  - intros Hshort. pose proof (strip_length (isspace rt) token) as Hlen.
    fold t in Hlen. unfold candidates_by_index.
    replace (length t <? min_part_len * 2)%nat with true
      by (symmetry; apply Nat.ltb_lt; lia).
    now rewrite set_iter_nil.
Qed.

(** On [" abab"] with [min_part_len = 1] the candidate is [("ab", "ab")]:
    the fragments make up the stripped token, not the token. *)
Lemma split_validity_counterexample :
  exists L R,
    Cli.simple_sandhi_splits Excerpt.runtime insertion_order
      Text.abab_padded 1 = Ok [(L, R)]
    /\ L ++ R <> Text.abab_padded.
Proof.
  exists Text.ab, Text.ab. split; [reflexivity | discriminate].
Qed.

Lemma split_validity_witness :
  exists l,
    Cli.simple_sandhi_splits Excerpt.runtime insertion_order
      Text.ahamasti 2 = Ok l
    /\ (forall L R, In (L, R) l ->
          L ++ R = strip (isspace Excerpt.runtime) Text.ahamasti
          /\ (2 <= length L)%nat /\ (2 <= length R)%nat
          /\ L <> [] /\ R <> [])
    /\ ((length Text.ahamasti < 2 * 2)%nat -> l = []).
Proof.
  apply (@split_validity Excerpt.runtime insertion_order Text.ahamasti 2).
  lia.
Defined.

(** C3 (amended).  For every token and [min_part_len >= 1] the returned
    sequence has no repeated pair, holds exactly the candidates, and is
    sorted ascending by [|len(L) - len(R)|]; candidates of equal score come
    in the order in which the set of candidates is iterated; calls under
    the same iteration order return the same sequence. *)
Theorem split_order (rt : Runtime) (so : SetOrder) (token : str)
  (min_part_len : nat) :
  (1 <= min_part_len)%nat ->
  exists l,
    Cli.simple_sandhi_splits rt so token min_part_len = Ok l
    /\ NoDup l
    /\ Permutation l
         (candidates_by_index (strip (isspace rt) token) min_part_len)
    /\ StronglySorted (fun x y => Cli.score x <= Cli.score y) l
    /\ (forall k,
          filter (fun x => Cli.score x =? k) l
          = filter (fun x => Cli.score x =? k)
              (set_iter so
                 (candidates_by_index (strip (isspace rt) token)
                    min_part_len)))
    /\ (forall l', Cli.simple_sandhi_splits rt so token min_part_len = Ok l'
                   -> l' = l).
Proof.
  intros Hmin. rewrite (simple_sandhi_splits_value rt so token Hmin).
  eexists. split; [reflexivity|].
  set (cands := candidates_by_index (strip (isspace rt) token) min_part_len).
  assert (Hperm : Permutation (sorted Cli.score (set_iter so cands))
                    (set_iter so cands))
    by (symmetry; apply sorted_perm).
  repeat split.
  - eapply Permutation_NoDup; [symmetry; exact Hperm | apply set_iter_NoDup].
  - rewrite Hperm. apply NoDup_Permutation.
    + apply set_iter_NoDup.
    + apply candidates_NoDup.
    + apply set_iter_In.
  - apply sorted_sorted.
  - intro k. apply sorted_stable.
  - now intros l' [= <-].
Qed.

(** Under the reverse iteration order, ["aaaaaa"] yields the split at index
    4 before the split at index 2, both of score 2. *)
Lemma split_order_counterexample :
  exists l,
    Cli.simple_sandhi_splits Excerpt.runtime reverse_order
      Text.aaaaaa 2 = Ok l
    /\ ~ ties_by_index l.
Proof.
  exists [ ([0x61; 0x61; 0x61], [0x61; 0x61; 0x61]);
           ([0x61; 0x61; 0x61; 0x61], [0x61; 0x61]);
           ([0x61; 0x61], [0x61; 0x61; 0x61; 0x61]) ].
  split; [reflexivity|].
  intro H. specialize (H 1%nat 2%nat _ _ eq_refl eq_refl).
  simpl in H. lia.
Qed.

Lemma split_order_witness :
  exists l,
    Cli.simple_sandhi_splits Excerpt.runtime insertion_order
      Text.aaaaaa 2 = Ok l
    /\ NoDup l
    /\ StronglySorted (fun x y => Cli.score x <= Cli.score y) l.
Proof.
  destruct (@split_order Excerpt.runtime insertion_order
              Text.aaaaaa 2 ltac:(lia))
    as [l [Hl [Hnd [_ [Hs _]]]]].
  exists l. auto.
Defined.

(** C9.  For every token and [min_part_len >= 1], the split at an index of
    the loop is a candidate if and only if the right fragment starts with
    a vowel or the left fragment ends with the visarga; the third heuristic
    is the one that fires exactly when the left fragment ends with the
    visarga and the right fragment does not start with a vowel, the
    vowel-onset splits being taken by the first two. *)
Theorem candidate_condition (rt : Runtime) (so : SetOrder) (token : str)
  (min_part_len i : nat) :
  (1 <= min_part_len)%nat ->
  (min_part_len <= i)%nat ->
  (i + min_part_len <= length (strip (isspace rt) token))%nat ->
  let L := slice_to (strip (isspace rt) token) i in
  let R := slice_from (strip (isspace rt) token) i in
  exists l,
    Cli.simple_sandhi_splits rt so token min_part_len = Ok l
    /\ (In (L, R) l
        <-> vowel_onset R = true \/ endswith L Cli.visarga = true)
    /\ (Cli.heuristic L R = Ok (Some 3%nat)
        <-> endswith L Cli.visarga = true /\ vowel_onset R = false)
    /\ (vowel_onset R = true ->
        Cli.heuristic L R = Ok (Some (if vowel_coda L then 1 else 2)%nat)).
Proof.
  intros Hmin Hlo Hhi L R.
  set (t := strip (isspace rt) token) in *.
  rewrite (simple_sandhi_splits_value rt so token Hmin). fold t.
  eexists. split; [reflexivity|].
  assert (HL : L <> []).
  { intro H. apply (f_equal (@length _)) in H. unfold L, slice_to in H.
    rewrite length_firstn in H. simpl in H. lia. }
  assert (HR : R <> []).
  { intro H. apply (f_equal (@length _)) in H. unfold R, slice_from in H.
    rewrite length_skipn in H. simpl in H. lia. }
  rewrite (heuristic_value HL HR). repeat split.
  - intro Hin. apply result_In, candidates_In in Hin.
    destruct Hin as [j [Hj [Hf Hsplit]]].
    assert (j = i) by (apply (split_at_inj (token := t)); [lia | lia | exact Hsplit]).
    subst j. unfold fires in Hf. apply orb_true_iff in Hf. exact Hf.
  - intro Hf. apply result_In, candidates_In. exists i.
    repeat split; try lia. unfold fires. apply orb_true_iff. exact Hf.
  - destruct (vowel_coda L), (vowel_onset R), (endswith L Cli.visarga);
      simpl in *; congruence.
  - destruct (vowel_coda L), (vowel_onset R), (endswith L Cli.visarga);
      simpl in *; congruence.
  - intros [-> ->]. now rewrite andb_false_r.
  - intros ->. now destruct (vowel_coda L).
Qed.

(** On ["guruḥkṛṣṇa"], index 5: the left fragment ["guruḥ"] ends with the
    visarga and the right one starts with a consonant. *)
Lemma candidate_condition_witness :
  exists l,
    Cli.simple_sandhi_splits Excerpt.runtime insertion_order
      Text.guruh_krsna 2 = Ok l
    /\ (In (slice_to Text.guruh_krsna 5, slice_from Text.guruh_krsna 5) l
        <-> vowel_onset (slice_from Text.guruh_krsna 5) = true
            \/ endswith (slice_to Text.guruh_krsna 5) Cli.visarga = true)
    /\ (Cli.heuristic (slice_to Text.guruh_krsna 5)
          (slice_from Text.guruh_krsna 5) = Ok (Some 3%nat)
        <-> endswith (slice_to Text.guruh_krsna 5) Cli.visarga = true
            /\ vowel_onset (slice_from Text.guruh_krsna 5) = false)
    /\ (vowel_onset (slice_from Text.guruh_krsna 5) = true ->
        Cli.heuristic (slice_to Text.guruh_krsna 5)
          (slice_from Text.guruh_krsna 5)
        = Ok (Some (if vowel_coda (slice_to Text.guruh_krsna 5)
                    then 1 else 2)%nat)).
Proof.
  apply (@candidate_condition Excerpt.runtime insertion_order
           Text.guruh_krsna 2 5).
  - lia.
  - lia.
  - vm_compute. lia.
Defined.

(** ** The claims on the scanner *)

Lemma cli_patterns_nonempty rt :
  nonempty (Cli.NUMBER_RE rt) = true
  /\ nonempty Cli.WORD_RE = true
  /\ nonempty (Cli.PUNCT_RE rt) = true.
Proof. repeat split. Qed.

(** C8.  On every text, a round of the scanner's loop run at a cursor
    inside the text (a whitespace skip, a match of one of the patterns or
    the single-character fallback) leaves the cursor strictly further and
    still inside the text; so the loop ends, after at most [len(text)]
    rounds, by its guard and with the cursor at the end of the text, and
    more rounds than that change nothing. *)
Theorem scanner_advances (rt : Runtime) (text : str) :
  let body := scan_body (isspace rt) (Cli.NUMBER_RE rt) Cli.WORD_RE
                (Cli.PUNCT_RE rt) in
  let loop := scan_loop (isspace rt) (Cli.NUMBER_RE rt) Cli.WORD_RE
                (Cli.PUNCT_RE rt) in
  let start := {| cursor := 0; tokens := [] |} in
  (forall st c, nth_error text (cursor st) = Some c ->
     (cursor st < cursor (body text c st) <= length text)%nat)
  /\ cursor (loop (length text) text start) = length text
  /\ (forall fuel, (length text <= fuel)%nat ->
        loop fuel text start = loop (length text) text start).
Proof.
  destruct (cli_patterns_nonempty rt) as [Hn [Hw Hp]].
  repeat split.
  - now apply scan_body_advances.
  - now apply scan_body_advances.
  - apply scan_loop_exits; auto; simpl; lia.
  - intros fuel Hfuel. apply scan_loop_enough; auto; simpl; lia.
Qed.

(** The first round on ["aham vande gurūn."] takes the word ["aham"]. *)
Lemma scanner_advances_witness :
  (cursor {| cursor := 0; tokens := [] |}
   < cursor (scan_body (isspace Excerpt.runtime)
               (Cli.NUMBER_RE Excerpt.runtime) Cli.WORD_RE
               (Cli.PUNCT_RE Excerpt.runtime) Text.aham_vande 0x61%Z
               {| cursor := 0; tokens := [] |})
   <= length Text.aham_vande)%nat.
Proof.
  apply (proj1 (scanner_advances Excerpt.runtime Text.aham_vande)).
  reflexivity.
Defined.

(** The whitespace skipped between the tokens of a record, gathered in
    runs. *)
Lemma trace_gaps space (tr : list piece) :
  Forall (skipped_space space) tr ->
  exists gaps,
    length gaps = S (length (trace_tokens tr))
    /\ Forall (Forall (fun c => space c = true)) gaps
    /\ interleave gaps (trace_tokens tr) = trace_text tr.
Proof.
  induction 1 as [|p tr Hp _ IH].
  - exists [[]]. repeat constructor.
  - destruct IH as [gaps [Hlen [Hsp Hjoin]]].
    destruct p as [c|t]; simpl in *.
    + destruct gaps as [|g gaps]; [discriminate|].
      exists ((c :: g) :: gaps). split; [exact Hlen|]. split.
      * inversion Hsp; subst. constructor; [now constructor | assumption].
      * unfold trace_text in *. simpl. rewrite <- Hjoin.
        destruct (trace_tokens tr); reflexivity.
    + exists ([] :: gaps). split; [simpl; now rewrite Hlen|]. split.
      * constructor; [constructor | exact Hsp].
      * unfold trace_text in *. simpl. now rewrite Hjoin.
Qed.

(** C4.  For every input, the rounds of the scanner on the normalised
    text, each recorded as the whitespace code point it skipped or the
    token it emitted, concatenate to the normalised text; the emitted
    tokens of the record are the tokens returned, and what was skipped is
    whitespace.  So the tokens returned, put back between the runs of
    whitespace skipped before, between and after them, make up the
    normalised text. *)
Theorem scanner_lossless (rt : Runtime) (text : str)
  (normalize strip_diac iast_ascii : bool) :
  let s := Cli.prepare rt text normalize strip_diac iast_ascii in
  let toks := Cli.basic_tokenize rt text normalize strip_diac iast_ascii in
  let rounds :=
    scan_trace (isspace rt) (Cli.NUMBER_RE rt) Cli.WORD_RE (Cli.PUNCT_RE rt)
      (length s) s {| cursor := 0; tokens := [] |} in
  trace_text rounds = s
  /\ trace_tokens rounds = toks
  /\ Forall (skipped_space (isspace rt)) rounds
  /\ exists gaps,
       length gaps = S (length toks)
       /\ Forall (Forall (fun c => isspace rt c = true)) gaps
       /\ interleave gaps toks = s.
Proof.
  intros s toks rounds.
  destruct (cli_patterns_nonempty rt) as [Hn [Hw Hp]].
  destruct (scan_trace_spec (isspace rt) _ _ _ Hn Hw Hp (length s) s
              {| cursor := 0; tokens := [] |} (Nat.le_0_l _))
    as [Htext [Htoks [Hsp _]]].
  fold rounds in Htext, Htoks, Hsp.
  rewrite (scan_loop_exits (isspace rt) _ _ _ Hn Hw Hp) in Htext
    by (simpl; lia).
  simpl cursor in Htext. rewrite slice_all in Htext.
  assert (Hrounds : trace_tokens rounds = toks).
  { unfold toks, Cli.basic_tokenize, scan. fold s. now rewrite Htoks. }
  split; [exact Htext|]. split; [exact Hrounds|]. split; [exact Hsp|].
  destruct (trace_gaps Hsp) as [gaps [Hlen [Hgaps Hjoin]]].
  exists gaps. rewrite <- Hrounds, <- Htext. auto.
Qed.

(** ** The claim on the pipeline *)

Lemma expand_tokens_value rt so : forall toks expanded,
  exists pieces,
    Cli.expand_tokens rt so toks expanded = Ok (expanded ++ concat pieces)
    /\ Forall2 (expansion rt so) toks pieces.
Proof.
  induction toks as [|t toks IH]; intros expanded.
  - exists []. simpl. rewrite app_nil_r. split; constructor.
  - simpl Cli.expand_tokens.
    destruct (re_fullmatch Cli.WORD_RE t) eqn:Hword.
    + assert (Hmin : (1 <= Cli.default_min_part_len)%nat)
        by (unfold Cli.default_min_part_len; lia).
      pose proof (simple_sandhi_splits_value rt so t Hmin) as Hl.
      rewrite Hl. unfold bind.
      destruct (sorted Cli.score
                  (set_iter so
                     (candidates_by_index (strip (isspace rt) t)
                        Cli.default_min_part_len)))
        as [|[L R] rest] eqn:Hsorted.
      * destruct (IH (expanded ++ [t])) as [pieces [Hv Hp]].
        exists ([t] :: pieces). rewrite Hv. simpl.
        rewrite <- app_assoc. split; [reflexivity|].
        constructor; [|exact Hp]. now apply expansion_no_candidate.
      * destruct (IH (expanded ++ [L; R])) as [pieces [Hv Hp]].
        exists ([L; R] :: pieces). rewrite Hv. simpl.
        rewrite <- app_assoc. split; [reflexivity|].
        constructor; [|exact Hp]. now apply expansion_split with rest.
    + destruct (IH (expanded ++ [t])) as [pieces [Hv Hp]].
      exists ([t] :: pieces). rewrite Hv. simpl.
      rewrite <- app_assoc. split; [reflexivity|].
      constructor; [|exact Hp]. now apply expansion_not_word.
Qed.

(** C6.  With [sandhi_split] enabled the pipeline returns, in the order of
    the scanned tokens, one piece per token, concatenated: the two
    fragments of the first candidate for a token that fully matches the
    word pattern and has a candidate, the token itself for every other
    token (a word without candidate, a number, a punctuation mark, a
    fallback character). *)
Theorem pipeline_expands_in_place (rt : Runtime) (so : SetOrder) (text : str)
  (normalize strip_diacritics_flag iast_ascii_flag : bool) :
  exists pieces,
    Cli.pipeline_tokenize rt so text normalize strip_diacritics_flag
      iast_ascii_flag true = Ok (concat pieces)
    /\ Forall2 (expansion rt so)
         (Cli.basic_tokenize rt text normalize strip_diacritics_flag
            iast_ascii_flag)
         pieces.
Proof.
  unfold Cli.pipeline_tokenize. simpl negb. cbv iota.
  destruct (expand_tokens_value rt so
              (Cli.basic_tokenize rt text normalize strip_diacritics_flag
                 iast_ascii_flag) []) as [pieces [Hv Hp]].
  exists pieces. split; [exact Hv | exact Hp].
Qed.

(** ** The two variants of the scanner *)

Lemma flat_map_ext_in {A B : Type} (f g : A -> list B) l :
  (forall a, In a l -> f a = g a) -> flat_map f l = flat_map g l.
Proof.
  induction l as [|a l IH]; intros H; simpl; [reflexivity|].
  rewrite (H a (or_introl eq_refl)), IH; [reflexivity|].
  intros b Hb. apply H. now right.
Qed.

Lemma flat_map_not_nil {A B : Type} (f : A -> list B) l x :
  In x l -> f x <> [] -> flat_map f l <> [].
Proof.
  induction l as [|a l IH]; intros Hin Hx; [contradiction|].
  simpl. intro H. apply app_eq_nil in H. destruct H as [Ha Hl].
  destruct Hin as [->|Hin]; [contradiction|]. now apply IH.
Qed.

Lemma not_nil_In {A : Type} (l : list A) : l <> [] -> exists x, In x l.
Proof. destruct l as [|x l]; [congruence|]. exists x. now left. Qed.

(** Two matchers that agree on a set of strings closed under matching
    iterate alike on it. *)
Section IterateExt.
Variables f g : str -> list str.
Variable P : str -> Prop.
Hypothesis agree : forall s, P s -> f s = g s.
Hypothesis closed : forall s s', P s -> In s' (f s) -> P s'.

Lemma iterate_ext : forall fuel s, P s -> iterate f fuel s = iterate g fuel s.
Proof.
  induction fuel as [|fuel IH]; intros s Hs; simpl; [reflexivity|].
  rewrite <- (agree Hs). f_equal.
  apply flat_map_ext_in. intros s' Hin.
  destruct (length s' <? length s)%nat; [|reflexivity].
  apply IH. eapply closed; eauto.
Qed.
End IterateExt.

Lemma ascii_letter_latin c : latin_letter c = false -> ascii_letter c = false.
Proof. unfold latin_letter. now intros H%orb_false_iff. Qed.

Lemma latin_letter_extended c :
  latin_letter c = false -> extended_latin c = false.
Proof. unfold latin_letter. now intros H%orb_false_iff. Qed.

Lemma letter_class_agree s :
  ascii_run s = true ->
  run (Class latin_letter) s = run (Class ascii_letter) s.
Proof.
  destruct s as [|c s]; [reflexivity|]. simpl.
  destruct (latin_letter c) eqn:Hl.
  - now intros [-> _]%andb_true_iff.
  - intros _. now rewrite (ascii_letter_latin _ Hl).
Qed.

Lemma letter_class_closed s s' :
  ascii_run s = true -> In s' (run (Class latin_letter) s) ->
  ascii_run s' = true.
Proof.
  destruct s as [|c s]; [contradiction|]. simpl.
  destruct (latin_letter c); [|contradiction].
  now intros [_ H]%andb_true_iff [<-|[]].
Qed.

Lemma run_Plus a s :
  run (Plus a) s = flat_map (fun s' => iterate (run a) (length s') s') (run a s).
Proof. reflexivity. Qed.

Lemma run_Cat_Star a b s :
  run (Cat a (Star b)) s
  = flat_map (fun s' => iterate (run b) (length s') s') (run a s).
Proof. reflexivity. Qed.

Lemma run_Cat_Class p b c s :
  run (Cat (Class p) b) (c :: s) = if p c then run b s else [].
Proof.
  cbn [run]. destruct (p c); cbn [flat_map]; [apply app_nil_r | reflexivity].
Qed.

Lemma letters_agree s :
  ascii_run s = true ->
  run (Plus (Class latin_letter)) s = run (Plus (Class ascii_letter)) s.
Proof.
  intros Hs. rewrite !run_Plus. rewrite <- (letter_class_agree s Hs).
  apply flat_map_ext_in. intros s' Hin.
  apply iterate_ext with (P := fun s => ascii_run s = true).
  - exact letter_class_agree.
  - exact letter_class_closed.
  - eapply letter_class_closed; eauto.
Qed.

Lemma ascii_continuations_suffix s' s :
  is_suffix s' s -> ascii_continuations s = true ->
  ascii_continuations s' = true.
Proof.
  intros [pre ->]. induction pre as [|c pre IH]; [auto|].
  simpl. intros [_ H]%andb_true_iff. now apply IH.
Qed.

Lemma continuation_agree s :
  ascii_continuations s = true ->
  run (Cat (Class hyphen_apostrophe) (Plus (Class latin_letter))) s
  = run (Cat (Class hyphen_apostrophe) (Plus (Class ascii_letter))) s.
Proof.
  destruct s as [|c s]; [reflexivity|].
  rewrite !run_Cat_Class. cbn [ascii_continuations].
  destruct (hyphen_apostrophe c); [|reflexivity].
  intros [Hrun _]%andb_true_iff. now apply letters_agree.
Qed.

(** Where no continuation holds an extended letter the two word patterns
    match alike. *)
Lemma word_patterns_agree s :
  ascii_continuations s = true -> run Cli.WORD_RE s = run Gui.WORD_RE s.
Proof.
  intros Hs. unfold Cli.WORD_RE, Gui.WORD_RE. rewrite !run_Cat_Star.
  apply flat_map_ext_in. intros s' Hin.
  apply iterate_ext with (P := fun s => ascii_continuations s = true).
  - exact continuation_agree.
  - intros u u' Hu Hin'. eapply ascii_continuations_suffix; [|exact Hu].
    eapply run_suffix; eauto.
  - eapply ascii_continuations_suffix; [|exact Hs].
    eapply run_suffix; eauto.
Qed.

Lemma skipn_is_suffix (text : str) i : is_suffix (skipn i text) text.
Proof. exists (firstn i text). symmetry. apply firstn_skipn. Qed.

Lemma skipn_nth_error (text : str) i c :
  nth_error text i = Some c -> skipn i text = c :: skipn (S i) text.
Proof.
  revert i. induction text as [|x text IH]; intros [|i]; simpl; try discriminate.
  - now intros [= ->].
  - intros H. now rewrite (IH _ H).
Qed.

Lemma word_match_agree text i :
  ascii_continuations text = true ->
  re_match Cli.WORD_RE text i = re_match Gui.WORD_RE text i.
Proof.
  intros H. unfold re_match. rewrite word_patterns_agree; [reflexivity|].
  eapply ascii_continuations_suffix; [apply skipn_is_suffix | exact H].
Qed.

(** The word pattern matches at every Latin letter. *)
Lemma word_match_at_letter text i c :
  nth_error text i = Some c -> re_match Cli.WORD_RE text i = None ->
  latin_letter c = false.
Proof.
  intros Hc. unfold re_match. rewrite (skipn_nth_error _ _ Hc).
  destruct (latin_letter c) eqn:Hl; [|reflexivity].
  set (t := skipn (S i) text).
  assert (Hne : run Cli.WORD_RE (c :: t) <> []).
  { unfold Cli.WORD_RE. rewrite run_Cat_Star.
    assert (Hplus : run (Plus (Class latin_letter)) (c :: t) <> []).
    { rewrite run_Plus. cbn [run]. rewrite Hl. cbn [flat_map].
      rewrite app_nil_r. apply iterate_not_nil. }
    destruct (not_nil_In Hplus) as [x Hx].
    apply (flat_map_not_nil _ _ _ Hx). apply iterate_not_nil. }
  destruct (run Cli.WORD_RE (c :: t)); [congruence | discriminate].
Qed.

(** The two punctuation classes differ on extended Latin code points
    only. *)
Lemma punct_class_agree rt c :
  extended_latin c = false -> Cli.punct_class rt c = Gui.punct_class rt c.
Proof.
  intros H. unfold Cli.punct_class, Gui.punct_class.
  now rewrite H, orb_false_r.
Qed.

Lemma punct_match_agree rt text i c :
  nth_error text i = Some c -> extended_latin c = false ->
  re_match (Cli.PUNCT_RE rt) text i = re_match (Gui.PUNCT_RE rt) text i.
Proof.
  intros Hc Hext. unfold re_match. rewrite (skipn_nth_error _ _ Hc).
  unfold Cli.PUNCT_RE, Gui.PUNCT_RE. cbn [run].
  now rewrite (punct_class_agree rt _ Hext).
Qed.

Lemma scan_loop_ext space N W P N' W' P' text :
  (forall st c, nth_error text (cursor st) = Some c ->
     scan_body space N W P text c st = scan_body space N' W' P' text c st) ->
  forall fuel st,
    scan_loop space N W P fuel text st = scan_loop space N' W' P' fuel text st.
Proof.
  intros Hbody. induction fuel as [|fuel IH]; intros st; simpl; [reflexivity|].
  destruct (nth_error text (cursor st)) as [c|] eqn:Hc; [|reflexivity].
  rewrite (Hbody _ _ Hc). apply IH.
Qed.

(** The punctuation pattern is tried only where the word pattern failed,
    hence never on an extended Latin letter: exchanging the punctuation
    patterns of the variants changes no token. *)
Lemma punct_patterns_exchange rt text :
  scan (isspace rt) (Cli.NUMBER_RE rt) Cli.WORD_RE (Cli.PUNCT_RE rt) text
  = scan (isspace rt) (Cli.NUMBER_RE rt) Cli.WORD_RE (Gui.PUNCT_RE rt) text.
Proof.
  unfold scan. f_equal. apply scan_loop_ext. intros st c Hc.
  unfold scan_body.
  destruct (isspace rt c); [reflexivity|].
  destruct (re_match (Cli.NUMBER_RE rt) text (cursor st)); [reflexivity|].
  destruct (re_match Cli.WORD_RE text (cursor st)) eqn:Hw; [reflexivity|].
  rewrite (punct_match_agree rt _ _ Hc); [reflexivity|].
  apply latin_letter_extended. eapply word_match_at_letter; eauto.
Qed.

Lemma word_patterns_exchange rt text :
  ascii_continuations text = true ->
  scan (isspace rt) (Cli.NUMBER_RE rt) Cli.WORD_RE (Gui.PUNCT_RE rt) text
  = scan (isspace rt) (Gui.NUMBER_RE rt) Gui.WORD_RE (Gui.PUNCT_RE rt) text.
Proof.
  intros H. unfold scan. f_equal. apply scan_loop_ext. intros st c Hc.
  unfold scan_body. now rewrite (word_match_agree _ (cursor st) H).
Qed.

(** C7 (amended).  The two variants' scanners differ through the word
    pattern, whose continuation after a hyphen or an apostrophe takes ASCII
    letters only in the desktop variant, and not through the punctuation
    pattern: exchanging the punctuation patterns changes the tokens of no
    text, and on every input whose normalised text has no hyphen or
    apostrophe followed by a run of letters with an extended Latin letter
    in it, [basic_tokenize] and [tokenize] (normalisation on, the other
    flags off) return the same tokens. *)
Theorem variants_agree (rt : Runtime) (text : str) :
  (forall s,
     scan (isspace rt) (Cli.NUMBER_RE rt) Cli.WORD_RE (Cli.PUNCT_RE rt) s
     = scan (isspace rt) (Cli.NUMBER_RE rt) Cli.WORD_RE (Gui.PUNCT_RE rt) s)
  /\ (ascii_continuations (unicodedata_normalize rt NFC text) = true ->
      Cli.basic_tokenize rt text true false false
      = Gui.tokenize rt text false false).
Proof.
  split; [apply punct_patterns_exchange|].
  intros H. unfold Cli.basic_tokenize, Gui.tokenize, Cli.prepare, Gui.prepare,
    Cli.normalize_text, Gui.normalize_text.
  rewrite punct_patterns_exchange. now apply word_patterns_exchange.
Qed.

(** On ["a-ā"] the punctuation classes agree on every code point, yet the
    command-line variant returns ["a-ā"] and the desktop variant ["a"],
    ["-"], ["ā"]. *)
Lemma variants_counterexample :
  Forall (fun c => Cli.punct_class Excerpt.runtime c
                   = Gui.punct_class Excerpt.runtime c)
    (unicodedata_normalize Excerpt.runtime NFC Text.a_hyphen_a_macron)
  /\ Cli.basic_tokenize Excerpt.runtime Text.a_hyphen_a_macron
       true false false
     <> Gui.tokenize Excerpt.runtime Text.a_hyphen_a_macron false false.
Proof.
  split; [repeat constructor | vm_compute; discriminate].
Qed.

Lemma variants_agree_witness :
  Cli.basic_tokenize Excerpt.runtime Text.siva_lila true false false
  = Gui.tokenize Excerpt.runtime Text.siva_lila false false.
Proof.
  apply (proj2 (variants_agree Excerpt.runtime Text.siva_lila)).
  reflexivity.
Defined.

(** ** Diacritic stripping *)

(** C5 (amended).  [strip_diacritics] decomposes the text to the
    compatibility decomposition form (NFKD) and removes the code points of
    non-zero combining class, where the reference definition decomposes to
    the canonical form and removes the combining marks.  So on every text
    whose compatibility and canonical decompositions are the same and in
    whose decomposition the combining marks are exactly the code points of
    non-zero combining class, the command-line variant, which re-normalises
    to NFC, equals the reference definition; the desktop variant, which
    returns the stripped text as it is, equals it when that text is
    already in NFC form. *)
Theorem strip_diacritics_compatibility (rt : Runtime)
  (is_mark : char -> bool) (text : str) :
  unicodedata_normalize rt NFKD text = unicodedata_normalize rt NFD text ->
  Forall (fun ch => is_mark ch = truthy (unicodedata_combining rt ch))
    (unicodedata_normalize rt NFD text) ->
  Cli.strip_diacritics rt text = strip_diacritics_reference rt is_mark text
  /\ (unicodedata_normalize rt NFC (Gui.strip_diacritics rt text)
      = Gui.strip_diacritics rt text ->
      Gui.strip_diacritics rt text
      = strip_diacritics_reference rt is_mark text).
Proof.
  intros Hforms Hmarks.
  assert (Hkeep :
            filter (fun ch => negb (truthy (unicodedata_combining rt ch)))
              (unicodedata_normalize rt NFKD text)
            = filter (fun ch => negb (is_mark ch))
                (unicodedata_normalize rt NFD text)).
  { rewrite Hforms. apply filter_ext_in. intros ch Hin.
    rewrite Forall_forall in Hmarks. now rewrite (Hmarks ch Hin). }
  unfold Cli.strip_diacritics, Gui.strip_diacritics,
    strip_diacritics_reference.
  rewrite Hkeep. split; [reflexivity|]. intros Hnfc. now rewrite Hnfc.
Qed.

(** Each condition counts.  The ligature [ﬁ] has a compatibility
    decomposition and no canonical one: the program returns ["fi"], the
    reference definition [ﬁ].  In ["कि"] the vowel sign is a combining mark
    of combining class 0: the program keeps it, the reference definition
    removes it. *)
Lemma strip_diacritics_counterexample :
  Cli.strip_diacritics Excerpt.runtime Text.fi_ligature
  <> strip_diacritics_reference Excerpt.runtime Excerpt.is_mark
       Text.fi_ligature
  /\ Cli.strip_diacritics Excerpt.runtime Text.ki
     <> strip_diacritics_reference Excerpt.runtime Excerpt.is_mark Text.ki.
Proof. split; vm_compute; discriminate. Qed.

(** ["mokṣa"] has the same decomposition in both forms, and its one mark,
    the dot below, has combining class 220. *)
Lemma strip_diacritics_witness :
  Cli.strip_diacritics Excerpt.runtime Text.moksa
  = strip_diacritics_reference Excerpt.runtime Excerpt.is_mark Text.moksa
  /\ Gui.strip_diacritics Excerpt.runtime Text.moksa
     = strip_diacritics_reference Excerpt.runtime Excerpt.is_mark Text.moksa.
Proof.
  destruct (@strip_diacritics_compatibility Excerpt.runtime Excerpt.is_mark
              Text.moksa) as [Hcli Hgui].
  - reflexivity.
  - vm_compute. repeat constructor.
  - split; [exact Hcli | apply Hgui; reflexivity].
Defined.

(** C10.  [strip_diacritics] decomposes with NFKD, and is not the identity
    on text free of diacritics: the ligature [ﬁ] holds no combining mark,
    is its own canonical decomposition, and is left alone by the reference
    definition, yet both variants turn it into ["fi"]. *)
Theorem strip_diacritics_changes_ligature :
  exists s,
    Forall (fun c => unicodedata_combining Excerpt.runtime c = 0) s
    /\ unicodedata_normalize Excerpt.runtime NFD s = s
    /\ unicodedata_normalize Excerpt.runtime NFKD s <> s
    /\ strip_diacritics_reference Excerpt.runtime Excerpt.is_mark s = s
    /\ Cli.strip_diacritics Excerpt.runtime s <> s
    /\ Gui.strip_diacritics Excerpt.runtime s <> s.
Proof.
  exists Text.fi_ligature.
  repeat split; try reflexivity; try (vm_compute; discriminate).
  repeat constructor.
Qed.

(** * Further properties of the program *)

(** ** Transliteration *)

Lemma char_eqb_eq a b : char_eqb a b = true <-> a = b.
Proof. apply Z.eqb_eq. Qed.

Lemma is_key_In mapping c :
  is_key mapping c = true <-> exists v, In (c, v) mapping.
Proof.
  unfold is_key. rewrite existsb_exists. split.
  - intros [[k v] [Hin Hk]]. apply char_eqb_eq in Hk. simpl in Hk. subst.
    now exists v.
  - intros [v Hin]. exists (c, v). split; [exact Hin|]. now apply char_eqb_eq.
Qed.

(** A letter that is no key is returned as the default. *)
Lemma dict_get_default mapping c d :
  is_key mapping c = false -> dict_get mapping c d = d.
Proof.
  intros Hkey. unfold dict_get.
  destruct (find (fun kv => char_eqb (fst kv) c) (rev mapping))
    as [[k v]|] eqn:Hfind; [|reflexivity].
  apply find_some in Hfind. destruct Hfind as [Hin Hk].
  apply char_eqb_eq in Hk. simpl in Hk. subst k.
  apply in_rev in Hin.
  assert (is_key mapping c = true) by (apply is_key_In; now exists v).
  congruence.
Qed.

(** A key is given a value of the table. *)
Lemma dict_get_value mapping c d :
  is_key mapping c = true -> In (c, dict_get mapping c d) mapping.
Proof.
  intros Hkey. unfold dict_get.
  destruct (find (fun kv => char_eqb (fst kv) c) (rev mapping))
    as [[k v]|] eqn:Hfind.
  - apply find_some in Hfind. destruct Hfind as [Hin Hk].
    apply char_eqb_eq in Hk. simpl in Hk. subst k. now apply in_rev.
  - exfalso. apply is_key_In in Hkey. destruct Hkey as [v Hin].
    apply in_rev in Hin.
    pose proof (find_none _ _ Hfind _ Hin) as Hno. simpl in Hno.
    assert (char_eqb c c = true) by now apply char_eqb_eq. congruence.
Qed.

(** What a table with plain values does to one letter. *)
Lemma dict_get_letter mapping c :
  plain_values mapping = true ->
  exists d,
    dict_get mapping c [c] = [d]
    /\ (if is_key mapping c then ascii_letter d = true else d = c)
    /\ is_key mapping d = false.
Proof.
  intros Hplain. destruct (is_key mapping c) eqn:Hkey.
  - pose proof (dict_get_value mapping c [c] Hkey) as Hin.
    unfold plain_values in Hplain. rewrite forallb_forall in Hplain.
    specialize (Hplain _ Hin). simpl in Hplain.
    destruct (dict_get mapping c [c]) as [|d [|? ?]]; try discriminate.
    apply andb_true_iff in Hplain. destruct Hplain as [Hascii Hnot].
    exists d. repeat split; auto. now apply negb_true_iff.
  - exists c. rewrite (dict_get_default mapping c [c] Hkey). auto.
Qed.

Section Transliteration.
Variable mapping : list (char * str).
Hypothesis plain : plain_values mapping = true.

Local Abbreviation translit :=
  (flat_map (fun ch => dict_get mapping ch [ch])).

Lemma translit_letters s :
  Forall2 (fun c d => if is_key mapping c then ascii_letter d = true
                      else d = c) s (translit s).
Proof.
  induction s as [|c s IH]; simpl; [constructor|].
  destruct (dict_get_letter mapping c plain) as [d [-> [Hd _]]].
  simpl. now constructor.
Qed.

Lemma translit_no_key s :
  Forall (fun d => is_key mapping d = false) (translit s).
Proof.
  induction s as [|c s IH]; simpl; [constructor|].
  destruct (dict_get_letter mapping c plain) as [d [-> [_ Hd]]].
  simpl. now constructor.
Qed.

Lemma translit_fixed s :
  Forall (fun d => is_key mapping d = false) s -> translit s = s.
Proof.
  induction 1 as [|c s Hc _ IH]; simpl; [reflexivity|].
  now rewrite (dict_get_default mapping c [c] Hc), IH.
Qed.

Lemma translit_idempotent s : translit (translit s) = translit s.
Proof. apply translit_fixed, translit_no_key. Qed.

End Transliteration.

Lemma cli_mapping_plain : plain_values Cli.mapping = true.
Proof. vm_compute. reflexivity. Qed.

Lemma gui_mapping_plain : plain_values Gui.mapping = true.
Proof. vm_compute. reflexivity. Qed.

Lemma cli_keys_not_ascii :
  forallb (fun kv => 0x80 <=? fst kv) Cli.mapping = true.
Proof. vm_compute. reflexivity. Qed.

Lemma gui_keys_not_ascii :
  forallb (fun kv => 0x80 <=? fst kv) Gui.mapping = true.
Proof. vm_compute. reflexivity. Qed.

(** X1.  [iast_to_simple_ascii] and [iast_to_ascii] work letter by letter:
    the result has the length of the text, a letter of the table is
    replaced by an ASCII letter, and every other code point stays where it
    is. *)
Theorem transliteration_letter_by_letter (text : str) :
  Forall2 (fun c d => if is_key Cli.mapping c then ascii_letter d = true
                      else d = c)
    text (Cli.iast_to_simple_ascii text)
  /\ Forall2 (fun c d => if is_key Gui.mapping c then ascii_letter d = true
                         else d = c)
       text (Gui.iast_to_ascii text)
  /\ length (Cli.iast_to_simple_ascii text) = length text
  /\ length (Gui.iast_to_ascii text) = length text.
Proof.
  pose proof (@translit_letters Cli.mapping cli_mapping_plain text) as Hc.
  pose proof (@translit_letters Gui.mapping gui_mapping_plain text) as Hg.
  split; [exact Hc|]. split; [exact Hg|].
  split; symmetry; [exact (Forall2_length Hc) | exact (Forall2_length Hg)].
Qed.

(** X2.  After [iast_to_simple_ascii] (or [iast_to_ascii]) no letter of the
    table is left, so that applying the function again changes nothing;
    text without a letter of the table, ASCII text in particular, is
    returned as it is. *)
Theorem transliteration_idempotent (text : str) :
  Forall (fun d => is_key Cli.mapping d = false)
    (Cli.iast_to_simple_ascii text)
  /\ Cli.iast_to_simple_ascii (Cli.iast_to_simple_ascii text)
     = Cli.iast_to_simple_ascii text
  /\ Forall (fun d => is_key Gui.mapping d = false) (Gui.iast_to_ascii text)
  /\ Gui.iast_to_ascii (Gui.iast_to_ascii text) = Gui.iast_to_ascii text
  /\ (Forall (fun c => c < 0x80) text ->
      Cli.iast_to_simple_ascii text = text
      /\ Gui.iast_to_ascii text = text).
Proof.
  split; [apply (@translit_no_key Cli.mapping cli_mapping_plain)|].
  split; [apply (@translit_idempotent Cli.mapping cli_mapping_plain)|].
  split; [apply (@translit_no_key Gui.mapping gui_mapping_plain)|].
  split; [apply (@translit_idempotent Gui.mapping gui_mapping_plain)|].
  intros Hascii.
  assert (Hkeys : forall mapping,
            forallb (fun kv => 0x80 <=? fst kv) mapping = true ->
            Forall (fun c => is_key mapping c = false) text).
  { intros mapping Hhigh. rewrite forallb_forall in Hhigh.
    eapply Forall_impl; [|exact Hascii]. intros c Hc. simpl in Hc.
    destruct (is_key mapping c) eqn:Hkey; [|reflexivity].
    apply is_key_In in Hkey. destruct Hkey as [v Hin].
    specialize (Hhigh _ Hin). simpl in Hhigh. apply Z.leb_le in Hhigh. lia. }
  split; apply translit_fixed; apply Hkeys;
    [apply cli_keys_not_ascii | apply gui_keys_not_ascii].
Qed.

Lemma transliteration_idempotent_witness :
  Cli.iast_to_simple_ascii Text.ahamasti = Text.ahamasti
  /\ Gui.iast_to_ascii Text.ahamasti = Text.ahamasti.
Proof.
  apply (proj2 (proj2 (proj2 (proj2
           (transliteration_idempotent Text.ahamasti))))).
  unfold Text.ahamasti. repeat constructor.
Defined.

Lemma gui_keys_in_cli :
  forallb (fun kv => is_key Cli.mapping (fst kv)) Gui.mapping = true.
Proof. vm_compute. reflexivity. Qed.

Lemma tables_agree_on_letter c :
  ~ In c cli_only_keys ->
  dict_get Cli.mapping c [c] = dict_get Gui.mapping c [c].
Proof.
  intros Hc. destruct (is_key Cli.mapping c) eqn:Hkey.
  - apply is_key_In in Hkey. destruct Hkey as [v Hin].
    unfold Cli.mapping in Hin. simpl In in Hin.
    repeat (destruct Hin as [Hin|Hin];
            [injection Hin as <- _;
             first [ vm_compute; reflexivity
                   | exfalso; apply Hc; vm_compute; tauto ] |]).
    contradiction.
  - rewrite (dict_get_default Cli.mapping c [c] Hkey).
    destruct (is_key Gui.mapping c) eqn:Hgui.
    + exfalso. apply is_key_In in Hgui. destruct Hgui as [v Hin].
      pose proof gui_keys_in_cli as Hsub. rewrite forallb_forall in Hsub.
      specialize (Hsub _ Hin). cbn [fst] in Hsub. congruence.
    + now rewrite (dict_get_default Gui.mapping c [c] Hgui).
Qed.

(** X3.  The transliteration tables of the two variants differ on five
    letters only, [ḹ], [ḍ], [ṭ], [Ḍ] and [Ṭ], which [iast_to_simple_ascii]
    maps to [l], [d], [t], [D], [T] and [iast_to_ascii] leaves alone: on
    text without these letters the two functions return the same string. *)
Theorem transliteration_variants (text : str) :
  Forall (fun c => Gui.iast_to_ascii [c] = [c]
                   /\ Cli.iast_to_simple_ascii [c] <> [c]) cli_only_keys
  /\ (Forall (fun c => ~ In c cli_only_keys) text ->
      Cli.iast_to_simple_ascii text = Gui.iast_to_ascii text).
Proof.
  split.
  - repeat constructor; try (vm_compute; reflexivity);
      vm_compute; discriminate.
  - induction 1 as [|c s Hc _ IH]; [reflexivity|].
    unfold Cli.iast_to_simple_ascii, Gui.iast_to_ascii in *.
    cbn [flat_map]. now rewrite (tables_agree_on_letter Hc), IH.
Qed.

(** ["kṛṣṇaḥrāma"] holds none of the five letters. *)
Lemma transliteration_variants_witness :
  Cli.iast_to_simple_ascii Text.krsnah_rama
  = Gui.iast_to_ascii Text.krsnah_rama.
Proof.
  apply (proj2 (transliteration_variants Text.krsnah_rama)).
  unfold Text.krsnah_rama, cli_only_keys.
  repeat constructor; simpl; intuition discriminate.
Defined.

(** ** What the patterns match *)

Lemma iterate_matches step a :
  (forall s rest, In rest (step s) ->
     exists pre, s = pre ++ rest /\ matches a pre) ->
  forall fuel s rest, In rest (iterate step fuel s) ->
    exists pre, s = pre ++ rest /\ matches (Star a) pre.
Proof.
  intros Hstep fuel. induction fuel as [|fuel IH]; intros s rest Hin;
    simpl in Hin.
  - destruct Hin as [<-|[]]. exists []. split; [reflexivity | constructor].
  - apply in_app_or in Hin. destruct Hin as [Hin|[<-|[]]].
    + apply in_flat_map in Hin. destruct Hin as [s' [Hs' Hin]].
      destruct (length s' <? length s)%nat; [|contradiction].
      destruct (Hstep _ _ Hs') as [u [-> Hu]].
      destruct (IH _ _ Hin) as [v [-> Hv]].
      exists (u ++ v). split; [now rewrite app_assoc | now constructor].
    + exists []. split; [reflexivity | constructor].
Qed.

(** What [run] consumes is a match of the pattern. *)
Lemma run_matches r : forall s rest,
  In rest (run r s) -> exists pre, s = pre ++ rest /\ matches r pre.
Proof.
  induction r as [p|a IHa b IHb|a IHa|a IHa]; intros s rest Hin; simpl in Hin.
  - destruct s as [|c s']; [contradiction|].
    destruct (p c) eqn:Hp; [|contradiction].
    destruct Hin as [<-|[]]. exists [c]. split; [reflexivity | now constructor].
  - apply in_flat_map in Hin. destruct Hin as [s' [Hs' Hin]].
    destruct (IHa _ _ Hs') as [u [-> Hu]].
    destruct (IHb _ _ Hin) as [v [-> Hv]].
    exists (u ++ v). split; [now rewrite app_assoc | now constructor].
  - eapply iterate_matches; eauto.
  - apply in_flat_map in Hin. destruct Hin as [s' [Hs' Hin]].
    destruct (IHa _ _ Hs') as [u [-> Hu]].
    destruct (iterate_matches _ IHa _ _ _ Hin) as [v [-> Hv]].
    exists (u ++ v). split; [now rewrite app_assoc | now constructor].
Qed.

(** The token of a match object is a match of the pattern. *)
Lemma re_match_matches r text pos m :
  (pos <= length text)%nat ->
  re_match r text pos = Some m -> matches r (group0 text m).
Proof.
  unfold re_match, group0, slice. intros Hpos Hm.
  destruct (run r (skipn pos text)) as [|rest others] eqn:Hrun; [discriminate|].
  injection Hm as <-. simpl fst. simpl snd.
  assert (Hin : In rest (run r (skipn pos text))) by (rewrite Hrun; now left).
  destruct (run_matches _ _ _ Hin) as [pre [Hpre Hmatch]].
  assert (Hlen : length (skipn pos text) = (length pre + length rest)%nat)
    by (rewrite Hpre; apply length_app).
  rewrite length_skipn in Hlen. rewrite Hpre.
  replace (length text - length rest - pos)%nat with (length pre + 0)%nat
    by lia.
  rewrite firstn_app_2. simpl. now rewrite app_nil_r.
Qed.

(** A full match is a match of the whole string. *)
Lemma re_fullmatch_matches r s : re_fullmatch r s = true -> matches r s.
Proof.
  unfold re_fullmatch. intros H. apply existsb_exists in H.
  destruct H as [rest [Hin Hnil]]. destruct rest; [|discriminate].
  destruct (run_matches _ _ _ Hin) as [pre [Hpre Hmatch]].
  rewrite app_nil_r in Hpre. now subst.
Qed.

Lemma ends_with_app p u v : ends_with p v -> ends_with p (u ++ v).
Proof.
  intros [r [c [-> Hc]]]. exists (u ++ r), c. now rewrite app_assoc.
Qed.

Lemma ends_with_all p (s : str) :
  s <> [] -> Forall (fun c => p c = true) s -> ends_with p s.
Proof.
  intros Hne Hall. destruct (exists_last Hne) as [r [c ->]].
  exists r, c. split; [reflexivity|].
  apply Forall_app in Hall. destruct Hall as [_ Hc]. now inversion Hc.
Qed.

Lemma matches_class_inv p u :
  matches (Class p) u -> exists c, u = [c] /\ p c = true.
Proof. inversion 1; subst. eauto. Qed.

Lemma matches_star_class p v :
  matches (Star (Class p)) v -> Forall (fun c => p c = true) v.
Proof.
  remember (Star (Class p)) as r eqn:Hr. intros H.
  induction H as [| | |a u v Hu _ Hv IH|]; try discriminate.
  - constructor.
  - injection Hr as ->. apply matches_class_inv in Hu.
    destruct Hu as [c [-> Hc]]. simpl. constructor; auto.
Qed.

(** A match of [[p]+]: one code point of the class or more. *)
Lemma matches_plus_class p u :
  matches (Plus (Class p)) u ->
  u <> [] /\ Forall (fun c => p c = true) u.
Proof.
  inversion 1 as [| | | |a w v Hw Hv]; subst.
  apply matches_class_inv in Hw. destruct Hw as [c [-> Hc]].
  apply matches_star_class in Hv. simpl.
  split; [discriminate | now constructor].
Qed.

(** A match of [(?:[q][p]+)*]: nothing, or a string that ends in the class
    [p]. *)
Lemma matches_groups q p v :
  matches (Star (Cat (Class q) (Plus (Class p)))) v ->
  Forall (fun c => p c = true \/ q c = true) v /\ (v = [] \/ ends_with p v).
Proof.
  remember (Star (Cat (Class q) (Plus (Class p)))) as r eqn:Hr. intros H.
  induction H as [| | |a u v Hu _ Hv IH|]; try discriminate.
  - split; [constructor | now left].
  - injection Hr as ->. specialize (IH eq_refl). destruct IH as [Hall Hend].
    inversion Hu as [|a b x y Hx Hy| | |]; subst.
    apply matches_class_inv in Hx. destruct Hx as [c [-> Hc]].
    apply matches_plus_class in Hy. destruct Hy as [Hne Hy].
    split.
    + apply Forall_app. split; [|exact Hall]. simpl.
      constructor; [now right|].
      eapply Forall_impl; [|exact Hy]. simpl. intros; now left.
    + right. destruct Hend as [->|Hend].
      * rewrite app_nil_r. apply (ends_with_app [c]).
        now apply ends_with_all.
      * now apply ends_with_app.
Qed.

(** A match of [[p]+(?:[q][p']+)*] where the class [p'] lies in [p]: it
    starts and ends in [p] and is made of [p] and [q]. *)
Lemma matches_runs p q p' t :
  (forall c, p' c = true -> p c = true) ->
  matches (Cat (Plus (Class p)) (Star (Cat (Class q) (Plus (Class p'))))) t ->
  starts_with p t /\ ends_with p t
  /\ Forall (fun c => p c = true \/ q c = true) t.
Proof.
  intros Hsub H. inversion H as [|a b u v Hu Hv| | |]; subst.
  apply matches_plus_class in Hu. destruct Hu as [Hne Hu].
  apply matches_groups in Hv. destruct Hv as [Hv Hend].
  split; [|split].
  - destruct u as [|c u]; [congruence|]. exists c, (u ++ v).
    split; [reflexivity|]. now inversion Hu.
  - destruct Hend as [->|[r [c [-> Hc]]]].
    + rewrite app_nil_r. now apply ends_with_all.
    + apply ends_with_app. exists r, c. auto.
  - apply Forall_app. split.
    + eapply Forall_impl; [|exact Hu]. simpl. intros; now left.
    + eapply Forall_impl; [|exact Hv]. simpl. intros c [Hc|Hc]; auto.
Qed.

(** ** The tokens of the scanner *)

Lemma slice_head text i j c :
  nth_error text i = Some c -> (i < j)%nat ->
  exists r, slice text i j = c :: r.
Proof.
  intros Hc Hlt. unfold slice. rewrite (skipn_nth_error _ _ Hc).
  destruct (j - i)%nat as [|k] eqn:Hk; [lia|].
  simpl. eauto.
Qed.

Section ScannerTokens.
Variable space : char -> bool.
Variables NUMBER_RE WORD_RE PUNCT_RE : regex.
Hypothesis number_nonempty : nonempty NUMBER_RE = true.
Hypothesis word_nonempty : nonempty WORD_RE = true.
Hypothesis punct_nonempty : nonempty PUNCT_RE = true.

Local Abbreviation ok := (round_ok space NUMBER_RE WORD_RE PUNCT_RE).

Lemma body_piece_ok text c st :
  nth_error text (cursor st) = Some c ->
  ok (body_piece space NUMBER_RE WORD_RE PUNCT_RE text c st).
Proof.
  intros Hc.
  assert (Hlt : (cursor st < length text)%nat)
    by (apply nth_error_Some; rewrite Hc; discriminate).
  assert (Hemit : forall r m,
             nonempty r = true -> re_match r text (cursor st) = Some m ->
             exists t, slice text (cursor st) (cursor (emit text m st)) = c :: t
                       /\ matches r (c :: t)).
  { intros r m Hne Hm.
    destruct (re_match_span r text (Nat.lt_le_incl _ _ Hlt) Hm)
      as [Hfst [Hle Hprog]]. specialize (Hprog Hne).
    pose proof (re_match_matches r text (Nat.lt_le_incl _ _ Hlt) Hm) as Hmat.
    unfold group0 in Hmat. rewrite Hfst in Hmat.
    unfold emit, m_end. simpl cursor.
    destruct (slice_head text (j := snd m) Hc Hprog) as [t Ht].
    exists t. rewrite Ht in *. auto. }
  unfold body_piece, scan_body. destruct (space c) eqn:Hsp; [exact Hsp|].
  simpl.
  destruct (re_match NUMBER_RE text (cursor st)) as [m|] eqn:Hn.
  { destruct (Hemit _ _ number_nonempty Hn) as [t [-> Hm]].
    exists c, t. auto. }
  destruct (re_match WORD_RE text (cursor st)) as [m|] eqn:Hw.
  { destruct (Hemit _ _ word_nonempty Hw) as [t [-> Hm]].
    exists c, t. auto. }
  destruct (re_match PUNCT_RE text (cursor st)) as [m|] eqn:Hp.
  { destruct (Hemit _ _ punct_nonempty Hp) as [t [-> Hm]].
    exists c, t. auto 6. }
  simpl cursor. rewrite (slice_one _ _ Hc). exists c, []. auto 6.
Qed.

Lemma scan_trace_ok fuel : forall text st,
  Forall ok (scan_trace space NUMBER_RE WORD_RE PUNCT_RE fuel text st).
Proof.
  induction fuel as [|fuel IH]; intros text st; simpl; [constructor|].
  destruct (nth_error text (cursor st)) as [c|] eqn:Hc; [|constructor].
  constructor; [now apply body_piece_ok | apply IH].
Qed.

(** The tokens are the emitted pieces of the rounds, which make up the
    text. *)
Lemma scan_rounds text :
  exists rounds,
    Forall ok rounds
    /\ trace_tokens rounds = scan space NUMBER_RE WORD_RE PUNCT_RE text
    /\ trace_text rounds = text.
Proof.
  exists (scan_trace space NUMBER_RE WORD_RE PUNCT_RE (length text) text
            {| cursor := 0; tokens := [] |}).
  destruct (scan_trace_spec space _ _ _ number_nonempty word_nonempty
              punct_nonempty (length text) text
              {| cursor := 0; tokens := [] |} (Nat.le_0_l _))
    as [Htext [Htoks _]].
  rewrite (scan_loop_exits space _ _ _ number_nonempty word_nonempty
             punct_nonempty) in Htext by (simpl; lia).
  simpl cursor in Htext. rewrite slice_all in Htext.
  split; [apply scan_trace_ok|]. split; [|exact Htext].
  unfold scan. now rewrite Htoks.
Qed.

Lemma rounds_tokens rounds :
  Forall ok rounds ->
  Forall (fun t => exists c r, t = c :: r /\ space c = false
                     /\ (matches NUMBER_RE t \/ matches WORD_RE t
                         \/ matches PUNCT_RE t \/ r = []))
    (trace_tokens rounds).
Proof.
  induction 1 as [|p rounds Hp _ IH]; simpl; [constructor|].
  destruct p; [exact IH | now constructor].
Qed.

Lemma rounds_no_token rounds :
  Forall ok rounds ->
  (trace_tokens rounds = []
   <-> Forall (fun c => space c = true) (trace_text rounds)).
Proof.
  unfold trace_text.
  induction 1 as [|p rounds Hp _ IH]; simpl; [split; auto|].
  destruct p as [c|t]; simpl in *.
  - rewrite IH. split; [now constructor | now inversion 1].
  - split; [discriminate|]. intros Hall.
    destruct Hp as [c [r [-> [Hc _]]]]. inversion Hall; subst. congruence.
Qed.

Lemma rounds_no_space rounds :
  Forall ok rounds ->
  Forall (fun c => space c = false) (trace_text rounds) ->
  concat (trace_tokens rounds) = trace_text rounds.
Proof.
  unfold trace_text.
  induction 1 as [|p rounds Hp _ IH]; simpl; [reflexivity|].
  destruct p as [c|t]; simpl in *.
  - intros Hall. inversion Hall; subst. congruence.
  - intros Hall. apply Forall_app in Hall. destruct Hall as [_ Hall].
    now rewrite IH.
Qed.

Lemma rounds_lengths rounds :
  Forall ok rounds ->
  (length (trace_tokens rounds) <= length (concat (trace_tokens rounds))
   <= length (trace_text rounds))%nat.
Proof.
  unfold trace_text.
  induction 1 as [|p rounds Hp _ IH]; simpl; [lia|].
  destruct p as [c|t]; simpl in *; [lia|].
  destruct Hp as [c [r [-> _]]]. rewrite !length_app. simpl. lia.
Qed.

End ScannerTokens.

(** A pattern [[p]+g*] matches wherever a code point of [p] stands, and
    its matches start with one. *)
Lemma runs_match_at p g text i c :
  nth_error text i = Some c -> p c = true ->
  re_match (Cat (Plus (Class p)) (Star g)) text i <> None.
Proof.
  intros Hc Hp. unfold re_match. rewrite (skipn_nth_error _ _ Hc).
  set (t := skipn (S i) text).
  assert (Hne : run (Cat (Plus (Class p)) (Star g)) (c :: t) <> []).
  { rewrite run_Cat_Star.
    assert (Hplus : run (Plus (Class p)) (c :: t) <> []).
    { rewrite run_Plus. cbn [run]. rewrite Hp. cbn [flat_map].
      rewrite app_nil_r. apply iterate_not_nil. }
    destruct (not_nil_In Hplus) as [x Hx].
    apply (flat_map_not_nil _ _ _ Hx). apply iterate_not_nil. }
  destruct (run (Cat (Plus (Class p)) (Star g)) (c :: t));
    [congruence | discriminate].
Qed.

Lemma runs_start p g c r :
  matches (Cat (Plus (Class p)) (Star g)) (c :: r) -> p c = true.
Proof.
  intros H.
  assert (Hs : starts_with p (c :: r)).
  { inversion H as [|a b u v Hu Hv| | |]; subst.
    apply matches_plus_class in Hu. destruct Hu as [Hne Hall].
    destruct u as [|x u]; [congruence|]. exists x, (u ++ v).
    split; [reflexivity|]. now inversion Hall. }
  destruct Hs as [x [r' [[= <- _] Hx]]]. exact Hx.
Qed.

Section TokenKinds.
Variable space : char -> bool.
Variables (digit letter punct : char -> bool) (more_digits more_letters : regex).

Local Abbreviation NUMBER_RE := (Cat (Plus (Class digit)) (Star more_digits)).
Local Abbreviation WORD_RE := (Cat (Plus (Class letter)) (Star more_letters)).
Local Abbreviation PUNCT_RE := (Class punct).

Lemma body_piece_kind text c st t :
  nth_error text (cursor st) = Some c ->
  body_piece space NUMBER_RE WORD_RE PUNCT_RE text c st = Emitted t ->
  token_kind digit letter NUMBER_RE WORD_RE t.
Proof.
  intros Hc Hpiece.
  pose proof (@body_piece_ok space NUMBER_RE WORD_RE PUNCT_RE
                eq_refl eq_refl eq_refl text c st Hc) as Hok.
  rewrite Hpiece in Hok. destruct Hok as [x [r [-> [Hx Hshape]]]].
  assert (x = c).
  { revert Hpiece. unfold body_piece. destruct (space c); [discriminate|].
    intros [= Hs].
    assert (Hlt : (cursor st
                   < cursor (scan_body space NUMBER_RE WORD_RE PUNCT_RE
                               text c st))%nat)
      by (apply (scan_body_advances space NUMBER_RE WORD_RE PUNCT_RE
                   eq_refl eq_refl eq_refl text st Hc)).
    destruct (slice_head text Hc Hlt) as [r' Hr']. congruence. }
  subst x. exists c, r. split; [reflexivity|].
  revert Hpiece. unfold body_piece, scan_body. rewrite Hx.
  destruct (re_match NUMBER_RE text (cursor st)) as [m|] eqn:Hn.
  { intros [= Hs].
    assert (Hlt : (cursor st <= length text)%nat)
      by (apply Nat.lt_le_incl, nth_error_Some; rewrite Hc; discriminate).
    pose proof (re_match_matches _ text Hlt Hn) as Hm.
    destruct (re_match_span _ text Hlt Hn) as [Hfst _].
    unfold group0 in Hm. rewrite Hfst in Hm.
    unfold emit, m_end in Hs. simpl cursor in Hs. rewrite Hs in Hm.
    now rewrite (runs_start Hm). }
  assert (Hd : digit c = false).
  { destruct (digit c) eqn:Hd; [|reflexivity].
    now destruct (@runs_match_at digit more_digits text (cursor st) c Hc Hd). }
  rewrite Hd.
  destruct (re_match WORD_RE text (cursor st)) as [m|] eqn:Hw.
  { intros [= Hs].
    assert (Hlt : (cursor st <= length text)%nat)
      by (apply Nat.lt_le_incl, nth_error_Some; rewrite Hc; discriminate).
    pose proof (re_match_matches _ text Hlt Hw) as Hm.
    destruct (re_match_span _ text Hlt Hw) as [Hfst _].
    unfold group0 in Hm. rewrite Hfst in Hm.
    unfold emit, m_end in Hs. simpl cursor in Hs. rewrite Hs in Hm.
    now rewrite (runs_start Hm). }
  assert (Hl : letter c = false).
  { destruct (letter c) eqn:Hl; [|reflexivity].
    now destruct (@runs_match_at letter more_letters text (cursor st) c Hc Hl). }
  rewrite Hl.
  destruct (re_match PUNCT_RE text (cursor st)) as [m|] eqn:Hp.
  { intros [= Hs].
    assert (Hlt : (cursor st <= length text)%nat)
      by (apply Nat.lt_le_incl, nth_error_Some; rewrite Hc; discriminate).
    pose proof (re_match_matches _ text Hlt Hp) as Hm.
    destruct (re_match_span _ text Hlt Hp) as [Hfst _].
    unfold group0 in Hm. rewrite Hfst in Hm.
    unfold emit, m_end in Hs. simpl cursor in Hs. rewrite Hs in Hm.
    apply matches_class_inv in Hm. destruct Hm as [y [[= _ ->] _]].
    reflexivity. }
  simpl cursor. rewrite (slice_one _ _ Hc). now intros [= <-].
Qed.

Lemma scan_trace_kinds fuel : forall text st,
  Forall (token_kind digit letter NUMBER_RE WORD_RE)
    (trace_tokens (scan_trace space NUMBER_RE WORD_RE PUNCT_RE fuel text st)).
Proof.
  induction fuel as [|fuel IH]; intros text st; simpl; [constructor|].
  destruct (nth_error text (cursor st)) as [c|] eqn:Hc; [|constructor].
  destruct (body_piece space NUMBER_RE WORD_RE PUNCT_RE text c st) as [x|t]
    eqn:Hpiece; simpl; [apply IH|].
  constructor; [eapply body_piece_kind; eauto | apply IH].
Qed.

Lemma scan_kinds text :
  Forall (token_kind digit letter NUMBER_RE WORD_RE)
    (scan space NUMBER_RE WORD_RE PUNCT_RE text).
Proof.
  destruct (scan_trace_spec space NUMBER_RE WORD_RE PUNCT_RE
              eq_refl eq_refl eq_refl (length text) text
              {| cursor := 0; tokens := [] |} (Nat.le_0_l _))
    as [_ [Htoks _]].
  unfold scan. rewrite Htoks. apply scan_trace_kinds.
Qed.

End TokenKinds.

Lemma gui_patterns_nonempty rt :
  nonempty (Gui.NUMBER_RE rt) = true
  /\ nonempty Gui.WORD_RE = true
  /\ nonempty (Gui.PUNCT_RE rt) = true.
Proof. repeat split. Qed.

Lemma number_match_shaped rt t :
  matches (Cli.NUMBER_RE rt) t -> number_shaped rt t.
Proof. apply matches_runs. auto. Qed.

Lemma cli_word_match_shaped t : matches Cli.WORD_RE t -> word_shaped t.
Proof. apply matches_runs. auto. Qed.

Lemma gui_word_match_shaped t : matches Gui.WORD_RE t -> word_shaped t.
Proof.
  apply matches_runs. intros c Hc. unfold latin_letter. now rewrite Hc.
Qed.

Lemma Forall_both {A : Type} (P Q R : A -> Prop) l :
  (forall x, P x -> Q x -> R x) -> Forall P l -> Forall Q l -> Forall R l.
Proof.
  intros H HP. induction HP as [|x l Hx _ IH]; intros HQ; [constructor|].
  inversion HQ; subst. constructor; auto.
Qed.

(** X4.  Every token of [basic_tokenize] and of [tokenize] is non-empty
    and starts with a code point that is no whitespace, and this code point
    decides what the token is.  A digit begins a number: digits, with dots
    and commas inside only (it ends with a digit).  A letter that is no
    digit begins a word: Latin letters, with hyphens and apostrophes inside
    only (it ends with a letter).  Any other code point is a token of its
    own. *)
Theorem token_shapes (rt : Runtime) (text : str)
  (normalize strip_diac iast_ascii : bool) :
  let shaped t :=
    exists c r, t = c :: r /\ isspace rt c = false
      /\ (if isdecimal rt c then number_shaped rt t
          else if latin_letter c then word_shaped t
          else r = []) in
  Forall shaped (Cli.basic_tokenize rt text normalize strip_diac iast_ascii)
  /\ Forall shaped (Gui.tokenize rt text strip_diac iast_ascii).
Proof.
  intros shaped.
  destruct (cli_patterns_nonempty rt) as [Hn [Hw Hp]].
  destruct (gui_patterns_nonempty rt) as [Hn' [Hw' Hp']].
  split.
  - destruct (scan_rounds (isspace rt) _ _ _ Hn Hw Hp
                (Cli.prepare rt text normalize strip_diac iast_ascii))
      as [rounds [Hok [Htoks _]]].
    pose proof (@rounds_tokens _ _ _ _ _ Hok) as Hfirst.
    rewrite Htoks in Hfirst.
    pose proof (scan_kinds (isspace rt) (isdecimal rt) latin_letter
                  (Cli.punct_class rt)
                  (Cat (Class dot_comma) (Plus (Class (isdecimal rt))))
                  (Cat (Class hyphen_apostrophe) (Plus (Class latin_letter)))
                  (Cli.prepare rt text normalize strip_diac iast_ascii)) as Hkinds.
    unfold Cli.basic_tokenize.
    apply (fun H => @Forall_both _ _ _ shaped _ H Hfirst Hkinds).
    intros t [c [r [-> [Hc _]]]] [c' [r' [[= <- <-] Hkind]]].
    exists c, r. split; [reflexivity|]. split; [exact Hc|].
    destruct (isdecimal rt c); [now apply number_match_shaped|].
    destruct (latin_letter c); [now apply cli_word_match_shaped | exact Hkind].
  - destruct (scan_rounds (isspace rt) _ _ _ Hn' Hw' Hp'
                (Gui.prepare rt text strip_diac iast_ascii))
      as [rounds [Hok [Htoks _]]].
    pose proof (@rounds_tokens _ _ _ _ _ Hok) as Hfirst.
    rewrite Htoks in Hfirst.
    pose proof (scan_kinds (isspace rt) (isdecimal rt) latin_letter
                  (Gui.punct_class rt)
                  (Cat (Class dot_comma) (Plus (Class (isdecimal rt))))
                  (Cat (Class hyphen_apostrophe) (Plus (Class ascii_letter)))
                  (Gui.prepare rt text strip_diac iast_ascii)) as Hkinds.
    unfold Gui.tokenize.
    apply (fun H => @Forall_both _ _ _ shaped _ H Hfirst Hkinds).
    intros t [c [r [-> [Hc _]]]] [c' [r' [[= <- <-] Hkind]]].
    exists c, r. split; [reflexivity|]. split; [exact Hc|].
    destruct (isdecimal rt c); [now apply number_match_shaped|].
    destruct (latin_letter c); [now apply gui_word_match_shaped | exact Hkind].
Qed.

(** X5.  [basic_tokenize] and [tokenize] return no token exactly when the
    text they scan (the input after the optional steps) is made of
    whitespace only, the empty text included. *)
Theorem no_token_iff_blank (rt : Runtime) (text : str)
  (normalize strip_diac iast_ascii : bool) :
  (Cli.basic_tokenize rt text normalize strip_diac iast_ascii = []
   <-> Forall (fun c => isspace rt c = true)
         (Cli.prepare rt text normalize strip_diac iast_ascii))
  /\ (Gui.tokenize rt text strip_diac iast_ascii = []
      <-> Forall (fun c => isspace rt c = true)
            (Gui.prepare rt text strip_diac iast_ascii)).
Proof.
  destruct (cli_patterns_nonempty rt) as [Hn [Hw Hp]].
  destruct (gui_patterns_nonempty rt) as [Hn' [Hw' Hp']].
  split.
  - destruct (scan_rounds (isspace rt) _ _ _ Hn Hw Hp
                (Cli.prepare rt text normalize strip_diac iast_ascii))
      as [rounds [Hok [Htoks Htext]]].
    unfold Cli.basic_tokenize. rewrite <- Htoks, <- Htext.
    apply (@rounds_no_token _ _ _ _ _ Hok).
  - destruct (scan_rounds (isspace rt) _ _ _ Hn' Hw' Hp'
                (Gui.prepare rt text strip_diac iast_ascii))
      as [rounds [Hok [Htoks Htext]]].
    unfold Gui.tokenize. rewrite <- Htoks, <- Htext.
    apply (@rounds_no_token _ _ _ _ _ Hok).
Qed.

(** X6.  The tokens of [basic_tokenize] are pieces of the scanned text:
    there are at most as many tokens as code points, together they are no
    longer than the text, and when the text holds no whitespace their
    concatenation is the text. *)
Theorem tokens_cover_text (rt : Runtime) (text : str)
  (normalize strip_diac iast_ascii : bool) :
  let s := Cli.prepare rt text normalize strip_diac iast_ascii in
  let toks := Cli.basic_tokenize rt text normalize strip_diac iast_ascii in
  (length toks <= length (concat toks) <= length s)%nat
  /\ (Forall (fun c => isspace rt c = false) s -> concat toks = s).
Proof.
  intros s toks.
  destruct (cli_patterns_nonempty rt) as [Hn [Hw Hp]].
  destruct (scan_rounds (isspace rt) _ _ _ Hn Hw Hp s)
    as [rounds [Hok [Htoks Htext]]].
  unfold toks, Cli.basic_tokenize. fold s. rewrite <- Htoks.
  split.
  - rewrite <- Htext. apply (@rounds_lengths _ _ _ _ _ Hok).
  - intros Hall. rewrite <- Htext. apply (@rounds_no_space _ _ _ _ _ Hok).
    now rewrite Htext.
Qed.

(** ["ahamasti"], scanned as it is, is one token. *)
Lemma tokens_cover_text_witness :
  concat (Cli.basic_tokenize Excerpt.runtime Text.ahamasti false false false)
  = Text.ahamasti.
Proof.
  apply (proj2 (tokens_cover_text Excerpt.runtime Text.ahamasti
                  false false false)).
  unfold Text.ahamasti. repeat constructor.
Defined.

(** X7.  [tokenize], the desktop variant's scanner, loses nothing either:
    its loop ends by its guard with the cursor at the end of the text, and
    its tokens, put back between the runs of whitespace skipped before,
    between and after them, make up the text it scanned. *)
Theorem tokenize_lossless (rt : Runtime) (text : str)
  (strip_diac ascii_map : bool) :
  let s := Gui.prepare rt text strip_diac ascii_map in
  let toks := Gui.tokenize rt text strip_diac ascii_map in
  cursor (scan_loop (isspace rt) (Gui.NUMBER_RE rt) Gui.WORD_RE
            (Gui.PUNCT_RE rt) (length s) s {| cursor := 0; tokens := [] |})
  = length s
  /\ exists gaps,
       length gaps = S (length toks)
       /\ Forall (Forall (fun c => isspace rt c = true)) gaps
       /\ interleave gaps toks = s.
Proof.
  intros s toks.
  destruct (gui_patterns_nonempty rt) as [Hn [Hw Hp]].
  pose proof (scan_loop_exits (isspace rt) _ _ _ Hn Hw Hp
                (fuel := length s) s {| cursor := 0; tokens := [] |}
                (Nat.le_0_l _)) as Hexit.
  simpl cursor in Hexit. rewrite Nat.sub_0_r in Hexit.
  specialize (Hexit (Nat.le_refl _)).
  split; [exact Hexit|].
  destruct (scan_trace_spec (isspace rt) _ _ _ Hn Hw Hp (length s) s
              {| cursor := 0; tokens := [] |} (Nat.le_0_l _))
    as [Htext [Htoks [Hsp _]]].
  rewrite Hexit in Htext. simpl cursor in Htext. rewrite slice_all in Htext.
  destruct (trace_gaps Hsp) as [gaps [Hlen [Hgaps Hjoin]]].
  exists gaps. unfold toks, Gui.tokenize, scan. fold s.
  rewrite Htoks. simpl app.
  split; [exact Hlen|]. split; [exact Hgaps|].
  rewrite Hjoin. exact Htext.
Qed.

(** ** More on the sandhi candidate generator *)

Lemma lstrip_head space s :
  lstrip space s = []
  \/ exists c r, lstrip space s = c :: r /\ space c = false.
Proof.
  induction s as [|c s IH]; simpl; [now left|].
  destruct (space c) eqn:Hc; [exact IH|]. right. eauto.
Qed.

Lemma lstrip_keeps space c r :
  space c = false -> lstrip space (c :: r) = c :: r.
Proof. intros H. simpl. now rewrite H. Qed.

Lemma lstrip_blanks space ws s :
  Forall (fun c => space c = true) ws -> lstrip space (ws ++ s) = lstrip space s.
Proof.
  induction 1 as [|c ws Hc _ IH]; simpl; [reflexivity|]. now rewrite Hc.
Qed.

(** A string that starts with no whitespace keeps its start when
    whitespace is stripped from its end. *)
Lemma rstrip_keeps_head space c r :
  space c = false -> exists r', rstrip space (c :: r) = c :: r'.
Proof.
  intros Hc. unfold rstrip. simpl rev.
  assert (H : forall w, exists w', lstrip space (w ++ [c]) = w' ++ [c]).
  { induction w as [|x w [w' IH]]; simpl.
    - rewrite Hc. now exists [].
    - destruct (space x); [now exists w' | now exists (x :: w)]. }
  destruct (H (rev r)) as [w' ->].
  rewrite rev_app_distr. simpl. eauto.
Qed.

Lemma strip_idempotent space s : strip space (strip space s) = strip space s.
Proof.
  unfold strip.
  assert (Hl : lstrip space (rstrip space (lstrip space s))
               = rstrip space (lstrip space s)).
  { destruct (lstrip_head space s) as [->|[c [r [-> Hc]]]]; [reflexivity|].
    destruct (@rstrip_keeps_head space c r Hc) as [r' ->].
    now apply lstrip_keeps. }
  rewrite Hl. unfold rstrip. rewrite rev_involutive.
  destruct (lstrip_head space (rev (lstrip space s)))
    as [->|[c [r [-> Hc]]]]; [reflexivity|].
  now rewrite (@lstrip_keeps space c r Hc).
Qed.

Lemma lstrip_nil_blank space u :
  lstrip space u = [] -> Forall (fun c => space c = true) u.
Proof.
  induction u as [|x u IH]; simpl; [constructor|].
  destruct (space x) eqn:Hx; [|discriminate]. intros; auto.
Qed.

Lemma lstrip_app space s ws c r :
  lstrip space s = c :: r -> lstrip space (s ++ ws) = lstrip space s ++ ws.
Proof.
  induction s as [|x s IH]; simpl; [discriminate|].
  destruct (space x); [exact IH | reflexivity].
Qed.

Lemma strip_blanks space ws1 ws2 s :
  Forall (fun c => space c = true) ws1 ->
  Forall (fun c => space c = true) ws2 ->
  strip space (ws1 ++ s ++ ws2) = strip space s.
Proof.
  intros H1 H2. unfold strip.
  rewrite (@lstrip_blanks space ws1 (s ++ ws2) H1).
  destruct (lstrip_head space s) as [Hnil|[c [r [Hs Hc]]]].
  - rewrite Hnil.
    rewrite (@lstrip_blanks space s ws2 (lstrip_nil_blank space s Hnil)).
    rewrite <- (app_nil_r ws2).
    now rewrite (@lstrip_blanks space ws2 [] H2).
  - rewrite (@lstrip_app space s ws2 c r Hs).
    unfold rstrip. rewrite rev_app_distr.
    rewrite (@lstrip_blanks space (rev ws2)); [reflexivity|].
    apply Forall_rev. exact H2.
Qed.

(** X8.  Whitespace around a token does not count: [simple_sandhi_splits]
    returns for a token padded with whitespace, and for a token stripped of
    it, what it returns for the token itself, whatever [min_part_len]. *)
Theorem splits_ignore_padding (rt : Runtime) (so : SetOrder)
  (token ws1 ws2 : str) (min_part_len : nat) :
  Forall (fun c => isspace rt c = true) ws1 ->
  Forall (fun c => isspace rt c = true) ws2 ->
  Cli.simple_sandhi_splits rt so (ws1 ++ token ++ ws2) min_part_len
  = Cli.simple_sandhi_splits rt so token min_part_len
  /\ Cli.simple_sandhi_splits rt so (strip (isspace rt) token) min_part_len
     = Cli.simple_sandhi_splits rt so token min_part_len.
Proof.
  intros H1 H2. unfold Cli.simple_sandhi_splits.
  now rewrite (strip_blanks (isspace rt) token H1 H2), strip_idempotent.
Qed.

(** [" ahamasti\n"] has the candidates of ["ahamasti"]. *)
Lemma splits_ignore_padding_witness :
  Cli.simple_sandhi_splits Excerpt.runtime insertion_order
    ([0x20] ++ Text.ahamasti ++ [0x0A]) 2
  = Cli.simple_sandhi_splits Excerpt.runtime insertion_order Text.ahamasti 2
  /\ Cli.simple_sandhi_splits Excerpt.runtime insertion_order
       (strip (isspace Excerpt.runtime) Text.ahamasti) 2
     = Cli.simple_sandhi_splits Excerpt.runtime insertion_order
         Text.ahamasti 2.
Proof.
  apply (@splits_ignore_padding Excerpt.runtime insertion_order
           Text.ahamasti [0x20] [0x0A] 2); repeat constructor.
Defined.

Lemma score_bound token min_part_len x :
  In x (candidates_by_index token min_part_len) ->
  0 <= Cli.score x
       <= Z.of_nat (length token) - 2 * Z.of_nat min_part_len.
Proof.
  intros Hin. apply candidates_In in Hin.
  destruct Hin as [i [Hi [_ Hsplit]]]. destruct x as [L R].
  destruct (split_at_spec (token := token) (i := i) ltac:(lia) Hsplit)
    as [_ [HL HR]].
  unfold Cli.score. lia.
Qed.

Lemma candidates_count token min_part_len :
  (length (candidates_by_index token min_part_len)
   <= length token + 1 - 2 * min_part_len)%nat.
Proof.
  unfold candidates_by_index.
  destruct (length token <? min_part_len * 2)%nat eqn:Hshort; [simpl; lia|].
  apply Nat.ltb_ge in Hshort. rewrite length_map.
  etransitivity; [apply filter_length_le|].
  unfold range. rewrite length_seq. lia.
Qed.

(** X9.  For [min_part_len >= 1], [simple_sandhi_splits] returns at most
    [n + 1 - 2 * min_part_len] candidates for a token of [n] code points
    (whitespace around it not counted); the first candidate is a most
    balanced one, no candidate having a smaller [|len(L) - len(R)|], and no
    candidate is more unbalanced than [n - 2 * min_part_len]. *)
Theorem splits_count_and_best (rt : Runtime) (so : SetOrder) (token : str)
  (min_part_len : nat) :
  (1 <= min_part_len)%nat ->
  let n := length (strip (isspace rt) token) in
  exists l,
    Cli.simple_sandhi_splits rt so token min_part_len = Ok l
    /\ (length l <= n + 1 - 2 * min_part_len)%nat
    /\ (forall best rest x, l = best :: rest -> In x l ->
          Cli.score best <= Cli.score x)
    /\ (forall x, In x l ->
          0 <= Cli.score x <= Z.of_nat n - 2 * Z.of_nat min_part_len).
Proof.
  intros Hmin n. rewrite (simple_sandhi_splits_value rt so token Hmin).
  eexists. split; [reflexivity|].
  set (cands := candidates_by_index (strip (isspace rt) token) min_part_len).
  split; [|split].
  - rewrite <- (Permutation_length (sorted_perm Cli.score _)).
    rewrite (Permutation_length
               (NoDup_Permutation (set_iter_NoDup so cands)
                  (candidates_NoDup _ _) (set_iter_In so cands))).
    apply candidates_count.
  - intros best rest x Hl Hin.
    pose proof (sorted_sorted Cli.score (set_iter so cands)) as Hs.
    rewrite Hl in Hs, Hin. apply StronglySorted_inv in Hs.
    destruct Hs as [_ Hall]. destruct Hin as [<-|Hin]; [lia|].
    rewrite Forall_forall in Hall. now apply Hall.
  - intros x Hin. apply result_In in Hin. now apply score_bound.
Qed.

Lemma splits_count_and_best_witness :
  exists l,
    Cli.simple_sandhi_splits Excerpt.runtime insertion_order
      Text.ahamasti 2 = Ok l
    /\ (length l <= 8 + 1 - 2 * 2)%nat.
Proof.
  destruct (@splits_count_and_best Excerpt.runtime insertion_order
              Text.ahamasti 2 ltac:(lia)) as [l [Hl [Hlen _]]].
  exists l. split; [exact Hl | exact Hlen].
Defined.

(** ** More on the pipeline *)

Lemma strip_ends space t :
  starts_with (fun c => negb (space c)) t ->
  ends_with (fun c => negb (space c)) t ->
  strip space t = t.
Proof.
  intros [c [r [-> Hc]]] [r' [d [Ht Hd]]].
  apply negb_true_iff in Hc, Hd.
  unfold strip, rstrip. rewrite (@lstrip_keeps space c r Hc), Ht.
  rewrite rev_app_distr. simpl. rewrite Hd.
  simpl rev. now rewrite rev_involutive.
Qed.

(** The piece a token expands to is the token or two non-empty fragments
    of the token stripped. *)
Lemma expansion_piece rt so t p :
  expansion rt so t p ->
  p = [t]
  \/ exists L R, p = [L; R] /\ L <> [] /\ R <> []
       /\ L ++ R = strip (isspace rt) t
       /\ re_fullmatch Cli.WORD_RE t = true.
Proof.
  intros [L R rest Hword Hsplits | |]; auto.
  right. exists L, R.
  assert (Hmin : (1 <= Cli.default_min_part_len)%nat)
    by (unfold Cli.default_min_part_len; lia).
  rewrite (simple_sandhi_splits_value rt so t Hmin) in Hsplits.
  injection Hsplits as Hsorted.
  assert (Hin : In (L, R)
                  (sorted Cli.score
                     (set_iter so
                        (candidates_by_index (strip (isspace rt) t)
                           Cli.default_min_part_len))))
    by (rewrite Hsorted; now left).
  apply result_In, candidates_In in Hin.
  destruct Hin as [i [Hi [_ Hsplit]]].
  unfold Cli.default_min_part_len in Hi.
  destruct (split_at_spec (token := strip (isspace rt) t) (i := i)
              ltac:(lia) Hsplit) as [Happ [HL HR]].
  repeat split; auto.
  - intros ->. simpl in HL. lia.
  - intros ->. simpl in HR. lia.
Qed.

(** X10.  With [sandhi_split] on, [pipeline_tokenize] returns between one
    and two entries per scanned token, and no entry is empty. *)
Theorem pipeline_sizes (rt : Runtime) (so : SetOrder) (text : str)
  (normalize strip_diacritics_flag iast_ascii_flag : bool) :
  let toks := Cli.basic_tokenize rt text normalize strip_diacritics_flag
                iast_ascii_flag in
  exists out,
    Cli.pipeline_tokenize rt so text normalize strip_diacritics_flag
      iast_ascii_flag true = Ok out
    /\ (length toks <= length out <= 2 * length toks)%nat
    /\ Forall (fun t => t <> []) out.
Proof.
  intros toks. unfold Cli.pipeline_tokenize. simpl negb. cbv iota. fold toks.
  destruct (expand_tokens_value rt so toks []) as [pieces [Hv Hp]].
  exists (concat pieces). split; [exact Hv|].
  assert (Htoks : Forall (fun t => t <> []) toks).
  { destruct (cli_patterns_nonempty rt) as [Hn [Hw Hpu]].
    destruct (scan_rounds (isspace rt) _ _ _ Hn Hw Hpu
                (Cli.prepare rt text normalize strip_diacritics_flag
                   iast_ascii_flag)) as [rounds [Hok [Hr _]]].
    unfold toks, Cli.basic_tokenize. rewrite <- Hr.
    eapply Forall_impl; [|apply (@rounds_tokens _ _ _ _ _ Hok)].
    intros t [c [r [-> _]]]. discriminate. }
  clear Hv. induction Hp as [|t p toks' pieces' Ht _ IH]; simpl.
  - split; [lia | constructor].
  - inversion Htoks as [|? ? Hne Htoks']; subst.
    destruct (IH Htoks') as [Hlen Hall].
    rewrite length_app.
    destruct (expansion_piece Ht) as [->|[L [R [-> [HL [HR _]]]]]]; simpl.
    + split; [lia | now constructor].
    + split; [lia | repeat constructor; auto].
Qed.

(** X11.  When no Latin letter is whitespace (as in Unicode), sandhi
    splitting moves no code point: the entries [pipeline_tokenize] returns
    with [sandhi_split] on concatenate to the same string as the scanned
    tokens. *)
Theorem pipeline_keeps_text (rt : Runtime) (so : SetOrder) (text : str)
  (normalize strip_diacritics_flag iast_ascii_flag : bool) :
  (forall c, latin_letter c = true -> isspace rt c = false) ->
  exists out,
    Cli.pipeline_tokenize rt so text normalize strip_diacritics_flag
      iast_ascii_flag true = Ok out
    /\ concat out
       = concat (Cli.basic_tokenize rt text normalize strip_diacritics_flag
                   iast_ascii_flag).
Proof.
  intros Hletters. unfold Cli.pipeline_tokenize. simpl negb. cbv iota.
  destruct (expand_tokens_value rt so
              (Cli.basic_tokenize rt text normalize strip_diacritics_flag
                 iast_ascii_flag) []) as [pieces [Hv Hp]].
  exists (concat pieces). split; [exact Hv|]. clear Hv.
  induction Hp as [|t p toks' pieces' Ht _ IH]; simpl; [reflexivity|].
  rewrite concat_app, IH. f_equal.
  destruct (expansion_piece Ht) as [->|[L [R [-> [_ [_ [Happ Hword]]]]]]];
    simpl; [apply app_nil_r|].
  rewrite app_nil_r, Happ. apply strip_ends.
  - apply re_fullmatch_matches, cli_word_match_shaped in Hword.
    destruct Hword as [[c [r [-> Hc]]] _]. exists c, r.
    split; [reflexivity|]. now rewrite (Hletters c Hc).
  - apply re_fullmatch_matches, cli_word_match_shaped in Hword.
    destruct Hword as [_ [[r [c [-> Hc]]] _]]. exists r, c.
    split; [reflexivity|]. now rewrite (Hletters c Hc).
Qed.

Lemma excerpt_letters_not_space c :
  latin_letter c = true -> isspace Excerpt.runtime c = false.
Proof.
  intros Hc. apply not_true_is_false. intros Hs. simpl in Hs.
  unfold latin_letter, ascii_letter, extended_latin, Excerpt.isspace,
    in_range, char_eqb in *.
  repeat rewrite ?orb_true_iff, ?andb_true_iff, ?Z.leb_le, ?Z.eqb_eq in Hc.
  repeat rewrite ?orb_true_iff, ?andb_true_iff, ?Z.leb_le, ?Z.eqb_eq in Hs.
  lia.
Qed.

(** ["kṛṣṇaḥrāma"], with diacritics stripped: ["krsn"] and ["ahrama"] make
    up ["krsnahrama"]. *)
Lemma pipeline_keeps_text_witness :
  exists out,
    Cli.pipeline_tokenize Excerpt.runtime insertion_order Text.krsnah_rama
      true true false true = Ok out
    /\ concat out
       = concat (Cli.basic_tokenize Excerpt.runtime Text.krsnah_rama
                   true true false).
Proof.
  apply (@pipeline_keeps_text Excerpt.runtime insertion_order
           Text.krsnah_rama true true false).
  exact excerpt_letters_not_space.
Defined.

(** ** The sentiment of the English words *)

Lemma iterate_class_all p (t : str) :
  Forall (fun c => p c = true) t ->
  In [] (iterate (run (Class p)) (length t) t).
Proof.
  induction 1 as [|c t Hc _ IH]; [now left|].
  cbn [length iterate run]. rewrite Hc. cbn [flat_map].
  rewrite app_nil_r. apply in_or_app. left.
  replace (length t <? S (length t))%nat with true
    by (symmetry; apply Nat.ltb_lt; lia).
  exact IH.
Qed.

(** [re.fullmatch(r"[A-Za-z]+", t)] holds for the non-empty strings of
    ASCII letters. *)
Lemma english_fullmatch t : re_fullmatch Gui.ENGLISH_RE t = english t.
Proof.
  destruct (english t) eqn:He.
  - destruct t as [|c t]; [discriminate|].
    simpl in He. apply andb_true_iff in He. destruct He as [Hc Ht].
    rewrite forallb_forall in Ht.
    unfold re_fullmatch, Gui.ENGLISH_RE. apply existsb_exists.
    exists []. split; [|reflexivity].
    rewrite run_Plus. cbn [run]. rewrite Hc. cbn [flat_map].
    rewrite app_nil_r. apply iterate_class_all.
    apply Forall_forall. exact Ht.
  - apply not_true_is_false. intros Hfull.
    apply re_fullmatch_matches, matches_plus_class in Hfull.
    destruct Hfull as [Hne Hall]. destruct t as [|c t]; [congruence|].
    assert (english (c :: t) = true); [|congruence].
    unfold english. apply forallb_forall. now apply Forall_forall.
Qed.

Lemma english_words_filter tokens :
  filter (re_fullmatch Gui.ENGLISH_RE) tokens = filter english tokens.
Proof. apply filter_ext. exact english_fullmatch. Qed.

Lemma filter_idempotent {A : Type} (f : A -> bool) l :
  filter f (filter f l) = filter f l.
Proof.
  induction l as [|x l IH]; simpl; [reflexivity|].
  destruct (f x) eqn:Hx; simpl; [rewrite Hx, IH|]; auto.
Qed.

(** X12.  [english_sentiment] reads only the tokens made of one or more
    ASCII letters: tokens with a digit, a hyphen, an apostrophe or a letter
    with a diacritic never reach the analyser, so dropping them from the
    token list changes nothing; and when no token is made of ASCII letters
    (no token at all, in particular) the answer is the fixed message
    ["Neutral (no English detected)"], whatever the analyser. *)
Theorem sentiment_reads_english_words (sia : Analyzer) (tokens : list str) :
  Gui.english_sentiment sia tokens
  = Gui.english_sentiment sia (filter english tokens)
  /\ (Forall (fun t => english t = false) tokens ->
      Gui.english_sentiment sia tokens = Gui.no_english).
Proof.
  unfold Gui.english_sentiment. rewrite !english_words_filter.
  rewrite filter_idempotent. split; [reflexivity|].
  intros Hnone.
  replace (filter english tokens) with (@nil str); [reflexivity|].
  symmetry. induction Hnone as [|t tokens Ht _ IH]; simpl; [reflexivity|].
  now rewrite Ht.
Qed.

(** ["mokṣa"] and ["guruḥkṛṣṇa"] are no English words. *)
Lemma sentiment_reads_english_words_witness :
  Gui.english_sentiment flat_analyzer [Text.moksa; Text.guruh_krsna]
  = Gui.no_english.
Proof.
  apply (proj2 (sentiment_reads_english_words flat_analyzer
                  [Text.moksa; Text.guruh_krsna])).
  repeat constructor.
Defined.

(** ** Scanning across whitespace *)

Lemma flat_map_map {A B C : Type} (f : B -> list C) (g : A -> B) l :
  flat_map f (map g l) = flat_map (fun x => f (g x)) l.
Proof. induction l as [|x l IH]; simpl; [reflexivity | now rewrite IH]. Qed.

Lemma map_flat_map {A B C : Type} (g : B -> C) (f : A -> list B) l :
  map g (flat_map f l) = flat_map (fun x => map g (f x)) l.
Proof.
  induction l as [|x l IH]; simpl; [reflexivity|].
  now rewrite map_app, IH.
Qed.

Lemma flat_map_nil {A B : Type} (f : A -> list B) l :
  (forall x, f x = []) -> flat_map f l = [].
Proof.
  intros H. induction l as [|x l IH]; simpl; [reflexivity|].
  now rewrite H, IH.
Qed.

(** Matching before a code point that the pattern cannot consume: the
    matches are those of the text before that code point. *)
Section Extend.
Variable tail : str.
Hypothesis tail_not_nil : tail <> [].

Local Abbreviation ext := (fun rest : str => rest ++ tail).

Lemma iterate_extend step :
  (forall a, step (a ++ tail) = map ext (step a)) ->
  forall m a n,
    (length a <= m)%nat -> (length (a ++ tail) <= n)%nat ->
    iterate step n (a ++ tail) = map ext (iterate step m a).
Proof.
  intros Hstep.
  assert (Hround : forall a n' (body : str -> list str),
            (forall rest, (length rest < length a)%nat ->
               iterate step n' (rest ++ tail) = map ext (body rest)) ->
            flat_map (fun s' => if (length s' <? length (a ++ tail))%nat
                                then iterate step n' s' else [])
              (step (a ++ tail))
            = map ext
                (flat_map (fun s' => if (length s' <? length a)%nat
                                     then body s' else [])
                   (step a))).
  { intros a n' body Hbody. rewrite Hstep, flat_map_map, map_flat_map.
    apply flat_map_ext_in. intros rest _. rewrite !length_app.
    destruct (length rest <? length a)%nat eqn:Hlt.
    - replace (length rest + length tail <? length a + length tail)%nat
        with true by (symmetry; apply Nat.ltb_lt; apply Nat.ltb_lt in Hlt; lia).
      apply Hbody. now apply Nat.ltb_lt.
    - replace (length rest + length tail <? length a + length tail)%nat
        with false by (symmetry; apply Nat.ltb_ge; apply Nat.ltb_ge in Hlt; lia).
      reflexivity. }
  assert (Htail : (1 <= length tail)%nat)
    by (destruct tail; [congruence | simpl; lia]).
  induction m as [|m IH]; intros a n Ha Hn;
    (destruct n as [|n]; [rewrite length_app in Hn; lia|]).
  - destruct a; [|simpl in Ha; lia].
    cbn [iterate]. rewrite (Hround [] n (fun _ => [])).
    + rewrite (flat_map_nil _ (step [])); [reflexivity|].
      intros rest. now destruct (length rest <? length (@nil char))%nat.
    + intros rest Hlt. simpl in Hlt. lia.
  - cbn [iterate]. rewrite map_app. f_equal.
    apply (Hround a n (iterate step m)).
    intros rest Hlt. apply IH; [lia|].
    rewrite length_app in *. lia.
Qed.

End Extend.

Lemma run_extend c b r :
  alphabet r c = false ->
  forall a, run r (a ++ c :: b) = map (fun rest => rest ++ c :: b) (run r a).
Proof.
  induction r as [p|r1 IH1 r2 IH2|r1 IH1|r1 IH1]; cbn [alphabet]; intros Hc a.
  - destruct a as [|x a]; simpl; [now rewrite Hc|]. now destruct (p x).
  - apply orb_false_iff in Hc. destruct Hc as [Hc1 Hc2].
    cbn [run]. rewrite (IH1 Hc1), flat_map_map, map_flat_map.
    apply flat_map_ext_in. intros rest _. apply (IH2 Hc2).
  - cbn [run]. apply iterate_extend; auto; discriminate.
  - rewrite !run_Plus. rewrite (IH1 Hc), flat_map_map, map_flat_map.
    apply flat_map_ext_in. intros rest _.
    apply iterate_extend; auto; discriminate.
Qed.

(** Before such a code point a pattern matches as in the text that ends
    there. *)
Lemma re_match_extend c b r a i :
  alphabet r c = false -> (i <= length a)%nat ->
  re_match r (a ++ c :: b) i = re_match r a i.
Proof.
  intros Hc Hi. unfold re_match.
  rewrite skipn_app. replace (i - length a)%nat with 0%nat by lia.
  simpl skipn. rewrite (@run_extend c b r Hc).
  destruct (run r (skipn i a)) as [|rest others] eqn:Hrun; [reflexivity|].
  simpl map. rewrite !length_app.
  assert (Hin : In rest (run r (skipn i a))) by (rewrite Hrun; now left).
  pose proof (is_suffix_length (run_suffix _ _ _ Hin)) as Hle.
  rewrite length_skipn in Hle. do 2 f_equal. lia.
Qed.

(** After a prefix a pattern matches as in the rest of the text, the span
    moved by the length of the prefix. *)
Lemma re_match_shift pre b r i :
  re_match r (pre ++ b) (length pre + i)
  = option_map (fun m => (length pre + fst m, length pre + snd m)%nat)
      (re_match r b i).
Proof.
  unfold re_match. rewrite skipn_app.
  rewrite (skipn_all2 pre) by lia.
  replace (length pre + i - length pre)%nat with i by lia. simpl app.
  destruct (run r (skipn i b)) as [|rest others] eqn:Hrun; [reflexivity|].
  assert (Hin : In rest (run r (skipn i b))) by (rewrite Hrun; now left).
  pose proof (is_suffix_length (run_suffix _ _ _ Hin)) as Hle.
  rewrite length_skipn in Hle. simpl. rewrite length_app.
  do 2 f_equal. lia.
Qed.

Lemma slice_app_left (a tail : str) i j :
  (j <= length a)%nat -> slice (a ++ tail) i j = slice a i j.
Proof.
  intros Hj. unfold slice. rewrite skipn_app, firstn_app.
  rewrite length_skipn.
  replace (j - i - (length a - i))%nat with 0%nat by lia.
  simpl. apply app_nil_r.
Qed.

Lemma slice_app_right (pre b : str) i j :
  slice (pre ++ b) (length pre + i) (length pre + j) = slice b i j.
Proof.
  unfold slice. rewrite skipn_app. rewrite (skipn_all2 pre) by lia.
  simpl app. f_equal; [lia | f_equal; lia].
Qed.

Section ScanAcross.
Variable space : char -> bool.
Variables NUMBER_RE WORD_RE PUNCT_RE : regex.
Hypothesis number_nonempty : nonempty NUMBER_RE = true.
Hypothesis word_nonempty : nonempty WORD_RE = true.
Hypothesis punct_nonempty : nonempty PUNCT_RE = true.

Local Abbreviation body := (scan_body space NUMBER_RE WORD_RE PUNCT_RE).
Local Abbreviation loop := (scan_loop space NUMBER_RE WORD_RE PUNCT_RE).

(** The loop run from a state to its end. *)
Local Abbreviation finish text st :=
  (loop (Nat.sub (length text%list) (cursor st)) text%list st).

Lemma finish_stop text st :
  nth_error text (cursor st) = None -> finish text st = st.
Proof.
  intros Hc. destruct (length text - cursor st)%nat; simpl; [reflexivity|].
  now rewrite Hc.
Qed.

Lemma finish_step text st x :
  nth_error text (cursor st) = Some x ->
  finish text st = finish text (body text x st).
Proof.
  intros Hc.
  pose proof (scan_body_advances space _ _ _ number_nonempty word_nonempty
                punct_nonempty text st Hc) as Hadv.
  destruct (length text - cursor st)%nat as [|k] eqn:Hk; [lia|].
  simpl scan_loop. rewrite Hc.
  apply (scan_loop_enough space _ _ _ number_nonempty word_nonempty
           punct_nonempty); lia.
Qed.

Section Prefix.
Variables (a b : str) (c : char).
Hypothesis number_stops : alphabet NUMBER_RE c = false.
Hypothesis word_stops : alphabet WORD_RE c = false.
Hypothesis punct_stops : alphabet PUNCT_RE c = false.

(** Before [c] a round does what it does on [a] alone. *)
Lemma body_extend st x :
  nth_error a (cursor st) = Some x ->
  body (a ++ c :: b) x st = body a x st.
Proof.
  intros Hx.
  assert (Hlt : (cursor st < length a)%nat)
    by (apply nth_error_Some; rewrite Hx; discriminate).
  assert (Hemit : forall r m, re_match r a (cursor st) = Some m ->
                    emit (a ++ c :: b) m st = emit a m st).
  { intros r m Hm.
    destruct (re_match_span r a (Nat.lt_le_incl _ _ Hlt) Hm) as [_ [Hle _]].
    unfold emit, group0. now rewrite slice_app_left by lia. }
  unfold scan_body.
  rewrite !(@re_match_extend c b) by (auto; lia).
  destruct (space x); [reflexivity|].
  destruct (re_match NUMBER_RE a (cursor st)) eqn:Hn; [now apply Hemit in Hn|].
  destruct (re_match WORD_RE a (cursor st)) eqn:Hw; [now apply Hemit in Hw|].
  destruct (re_match PUNCT_RE a (cursor st)) eqn:Hp; [now apply Hemit in Hp|].
  reflexivity.
Qed.

Lemma finish_prefix n : forall st,
  (cursor st <= length a)%nat -> (length a - cursor st <= n)%nat ->
  finish (a ++ c :: b) st = finish (a ++ c :: b) (finish a st).
Proof.
  induction n as [|n IH]; intros st Hle Hn.
  - rewrite (finish_stop a st); [reflexivity|]. apply nth_error_None. lia.
  - destruct (nth_error a (cursor st)) as [x|] eqn:Hx.
    + pose proof (scan_body_advances space _ _ _ number_nonempty
                    word_nonempty punct_nonempty a st Hx) as Hadv.
      assert (Hx' : nth_error (a ++ c :: b) (cursor st) = Some x).
      { rewrite nth_error_app1; [exact Hx|].
        apply nth_error_Some. rewrite Hx. discriminate. }
      rewrite (finish_step (a ++ c :: b) st Hx'), (finish_step a st Hx).
      rewrite (body_extend st Hx). apply IH; lia.
    + now rewrite (finish_stop a st Hx).
Qed.

End Prefix.

Section Shift.
Variables (pre b : str) (before : list str).

Local Abbreviation shift st :=
  {| cursor := length pre + cursor st; tokens := before ++ tokens st |}.

(** After the prefix a round does what it does on [b] alone, further
    right. *)
Lemma body_shift st x :
  body (pre ++ b) x (shift st) = shift (body b x st).
Proof.
  unfold scan_body. cbn [cursor tokens].
  rewrite !re_match_shift.
  assert (Hemit : forall m,
            emit (pre ++ b) (length pre + fst m, length pre + snd m)%nat
              (shift st)
            = shift (emit b m st)).
  { intros m. unfold emit, group0, m_end. cbn [cursor tokens fst snd].
    now rewrite slice_app_right, app_assoc. }
  destruct (space x).
  { cbn [cursor tokens]. f_equal. lia. }
  destruct (re_match NUMBER_RE b (cursor st));
    cbn [option_map]; [apply Hemit|].
  destruct (re_match WORD_RE b (cursor st));
    cbn [option_map]; [apply Hemit|].
  destruct (re_match PUNCT_RE b (cursor st));
    cbn [option_map]; [apply Hemit|].
  cbn [cursor tokens]. f_equal; [lia | now rewrite app_assoc].
Qed.

Lemma finish_shift n : forall st,
  (cursor st <= length b)%nat -> (length b - cursor st <= n)%nat ->
  finish (pre ++ b) (shift st) = shift (finish b st).
Proof.
  induction n as [|n IH]; intros st Hle Hn.
  - rewrite (finish_stop b st) by (apply nth_error_None; lia).
    apply finish_stop. cbn [cursor]. apply nth_error_None.
    rewrite length_app. lia.
  - destruct (nth_error b (cursor st)) as [x|] eqn:Hx.
    + pose proof (scan_body_advances space _ _ _ number_nonempty
                    word_nonempty punct_nonempty b st Hx) as Hadv.
      assert (Hx' : nth_error (pre ++ b) (cursor (shift st)) = Some x).
      { cbn [cursor]. rewrite nth_error_app2 by lia.
        now replace (length pre + cursor st - length pre)%nat
          with (cursor st) by lia. }
      rewrite (finish_step (pre ++ b) (shift st) Hx'), (finish_step b st Hx).
      rewrite body_shift. apply IH; lia.
    + rewrite (finish_stop b st Hx). apply finish_stop.
      cbn [cursor]. apply nth_error_None. rewrite length_app.
      apply nth_error_None in Hx. lia.
Qed.

End Shift.

(** Texts on the two sides of a whitespace code point that no pattern
    consumes are scanned one after the other. *)
Lemma scan_across a b c :
  space c = true ->
  alphabet NUMBER_RE c = false -> alphabet WORD_RE c = false ->
  alphabet PUNCT_RE c = false ->
  scan space NUMBER_RE WORD_RE PUNCT_RE (a ++ c :: b)
  = scan space NUMBER_RE WORD_RE PUNCT_RE a
    ++ scan space NUMBER_RE WORD_RE PUNCT_RE b.
Proof.
  intros Hsp Hn Hw Hp. unfold scan.
  set (start := {| cursor := 0; tokens := [] |}).
  assert (Hfin : forall text, loop (length text) text start = finish text start).
  { intros text. simpl cursor. now rewrite Nat.sub_0_r. }
  rewrite !Hfin.
  rewrite (@finish_prefix a b c Hn Hw Hp (length a) start)
    by (simpl; lia).
  set (st := finish a start).
  assert (Hcur : cursor st = length a).
  { unfold st. simpl cursor. rewrite Nat.sub_0_r.
    apply (scan_loop_exits space _ _ _ number_nonempty word_nonempty
             punct_nonempty); simpl; lia. }
  assert (Hc : nth_error (a ++ c :: b) (cursor st) = Some c).
  { rewrite Hcur, nth_error_app2, Nat.sub_diag by lia. reflexivity. }
  rewrite (finish_step (a ++ c :: b) st Hc).
  assert (Hbody : scan_body space NUMBER_RE WORD_RE PUNCT_RE (a ++ c :: b) c st
                  = {| cursor := length (a ++ [c]) + cursor start;
                       tokens := tokens st ++ tokens start |}).
  { unfold scan_body. rewrite Hsp. simpl.
    rewrite app_nil_r, length_app, Hcur. simpl. f_equal. lia. }
  rewrite Hbody.
  replace (a ++ c :: b) with ((a ++ [c]) ++ b)
    by (rewrite <- app_assoc; reflexivity).
  rewrite (@finish_shift (a ++ [c]) b (tokens st) (length b) start)
    by (simpl; lia).
  reflexivity.
Qed.

End ScanAcross.

Lemma blank_stops rt c :
  blank rt c ->
  alphabet (Cli.NUMBER_RE rt) c = false /\ alphabet Cli.WORD_RE c = false
  /\ alphabet (Cli.PUNCT_RE rt) c = false
  /\ alphabet Gui.WORD_RE c = false /\ alphabet (Gui.PUNCT_RE rt) c = false.
Proof.
  intros [Hsp [Hd [Hl [Hdc Hha]]]].
  pose proof (ascii_letter_latin _ Hl) as Ha.
  unfold Cli.NUMBER_RE, Cli.WORD_RE, Cli.PUNCT_RE, Gui.WORD_RE, Gui.PUNCT_RE,
    Cli.punct_class, Gui.punct_class.
  cbn [alphabet]. rewrite Hsp, Hd, Hl, Hdc, Hha, Ha. repeat split.
Qed.

(** X13.  Whitespace separates: when [c] is a whitespace code point that
    is no digit (and none of the letters and separators of the patterns),
    the tokens of [a + c + b] are the tokens of [a] followed by the tokens
    of [b], for [basic_tokenize] (no option set) and for the scanning loop
    of [tokenize]; no token spans the whitespace, and leading or trailing
    whitespace adds nothing. *)
Theorem whitespace_separates (rt : Runtime) (a b : str) (c : char) :
  blank rt c ->
  Cli.basic_tokenize rt (a ++ c :: b) false false false
  = Cli.basic_tokenize rt a false false false
    ++ Cli.basic_tokenize rt b false false false
  /\ scan (isspace rt) (Gui.NUMBER_RE rt) Gui.WORD_RE (Gui.PUNCT_RE rt)
       (a ++ c :: b)
     = scan (isspace rt) (Gui.NUMBER_RE rt) Gui.WORD_RE (Gui.PUNCT_RE rt) a
       ++ scan (isspace rt) (Gui.NUMBER_RE rt) Gui.WORD_RE (Gui.PUNCT_RE rt) b.
Proof.
  intros Hblank.
  destruct (blank_stops Hblank) as [Hn [Hw [Hp [Hw' Hp']]]].
  destruct Hblank as [Hsp _].
  destruct (cli_patterns_nonempty rt) as [Nn [Nw Np]].
  destruct (gui_patterns_nonempty rt) as [Nn' [Nw' Np']].
  split.
  - unfold Cli.basic_tokenize, Cli.prepare.
    apply (scan_across (isspace rt) _ _ _ Nn Nw Np a b c Hsp Hn Hw Hp).
  - apply (scan_across (isspace rt) _ _ _ Nn' Nw' Np' a b c Hsp Hn Hw' Hp').
Qed.

(** ["ahamasti"], a space, ["ab"]. *)
Lemma whitespace_separates_witness :
  Cli.basic_tokenize Excerpt.runtime (Text.ahamasti ++ 0x20 :: Text.ab)
    false false false
  = Cli.basic_tokenize Excerpt.runtime Text.ahamasti false false false
    ++ Cli.basic_tokenize Excerpt.runtime Text.ab false false false.
Proof.
  apply (proj1 (@whitespace_separates Excerpt.runtime Text.ahamasti Text.ab
                  0x20 ltac:(repeat split))).
Defined.
